(** * Scan workbench: source collection, admission and candidate aggregation

    A shallow embedding of the pure logic of
    [frontend/src/pages/ScanWorkbenchPage.tsx] (together with the request
    builder [api.createScan] of the API client), and the properties of the
    specification that are about it.

    Conventions of the embedding.
    - JavaScript numbers are integers ([Z]): occurrence counts, byte lengths
      and timestamps are integers, and scores are compared, never rounded.
      Sums are exact as long as they stay within the safe integers; what is
      proved about sums of counts carries that bound, and [double_add] gives
      the rounding of the double arithmetic beyond it.
    - Strings are the UTF-8 encodings of the JavaScript strings.
    - [T | null] and optional fields are [option T]; the falsy values of a
      string-or-null are [None] and the empty string.
    - A JavaScript [Map] keeps its keys in insertion order and [set] on an
      existing key keeps the key's position: it is an association list.
    - Objects stored in a [Map] and mutated in place are written back at
      the same key. *)

From stdpp Require Import base tactics option list strings pretty sorting.
From Stdlib Require Import ZArith Lia Ascii.

Set Warnings "-register-all".

Local Open Scope string_scope.
Local Open Scope list_scope.
Local Open Scope Z_scope.

(** ** JavaScript value helpers *)

(** [a ?? b] on a nullable value. *)
Definition nullish {A} (a b : option A) : option A :=
  match a with
  | Some x => Some x
  | None => b
  end.

(** [a ?? d] with a non-null default. *)
Definition nullish_or {A} (a : option A) (d : A) : A :=
  match a with
  | Some x => x
  | None => d
  end.

(** Truthiness of a string: only the empty string is falsy. *)
Definition truthy_string (s : string) : bool :=
  match s with
  | EmptyString => false
  | String _ _ => true
  end.

(** Truthiness of a [string | null | undefined]. *)
Definition truthy (s : option string) : bool :=
  match s with
  | Some s => truthy_string s
  | None => false
  end.

(** [Array.prototype.includes] on strings and on booleans. *)
Definition includes_string (x : string) (l : list string) : bool :=
  existsb (String.eqb x) l.

Definition includes_bool (x : bool) (l : list bool) : bool :=
  existsb (Bool.eqb x) l.

(** ** JavaScript [Map] with string keys *)

Module JsMap.

Definition t (V : Type) : Type := list (string * V).

Definition empty {V} : t V := [].

Fixpoint get {V} (k : string) (m : t V) : option V :=
  match m with
  | [] => None
  | (k', v) :: m' => if String.eqb k k' then Some v else get k m'
  end.

(** [set] overwrites in place, or appends a new key at the end. *)
Fixpoint set {V} (k : string) (v : V) (m : t V) : t V :=
  match m with
  | [] => [(k, v)]
  | (k', v') :: m' =>
      if String.eqb k k' then (k', v) :: m' else (k', v') :: set k v m'
  end.

(** [new Map(entries)]. *)
Definition of_entries {V} (entries : list (string * V)) : t V :=
  fold_left (fun m kv => set (fst kv) (snd kv) m) entries empty.

(** [Array.from(map.values())]. *)
Definition values {V} (m : t V) : list V := map snd m.

Definition keys {V} (m : t V) : list string := map fst m.

End JsMap.

(** ** [Array.prototype.sort] with a comparator

    The language standard requires the sort to be stable; for a consistent
    comparator every stable sort returns the same array, here computed by
    insertion from the right. [cmp a b > 0] puts [b] before [a]. *)

Fixpoint sort_insert {A} (cmp : A -> A -> Z) (x : A) (l : list A) : list A :=
  match l with
  | [] => [x]
  | y :: l' =>
      if (cmp x y <=? 0)%Z then x :: y :: l' else y :: sort_insert cmp x l'
  end.

Definition array_sort {A} (cmp : A -> A -> Z) (l : list A) : list A :=
  foldr (sort_insert cmp) [] l.

(** ** Data model ([types/api.ts]) *)

(** [Candidate.metadata]; the keys the workbench reads. *)
Record Metadata := {
  file_name : option string;
  sit_category : option string;
  extraction_module : option string;
  ocr_performed : option bool
}.

(** [Candidate]: the fields the aggregation reads. *)
Record Candidate := {
  candidate_id : string;
  candidate_type : string;
  value : string;
  score : option Z;
  frequency : Z;
  metadata : option Metadata
}.

(** [candidate.metadata?.field]. *)
Definition meta {A} (f : Metadata -> option A) (c : Candidate) : option A :=
  match metadata c with
  | Some m => f m
  | None => None
  end.

(** The value type of the [grouped] map in [groupedCandidates]. *)
Module Group.
Record t := {
  key : string;
  candidate_id : string;
  candidate_type : string;
  value : string;
  score : option Z;
  frequency : Z;
  fileNames : list string;
  sitCategory : option string;
  extractionModules : list string;
  ocrStates : list bool
}.
End Group.

(** ** Candidate aggregation ([groupedCandidates]) *)

(** [`${candidate.candidate_type}::${candidate.value}`] *)
Definition candidate_key (c : Candidate) : string :=
  candidate_type c +:+ "::" +:+ value c.

(** [candidate.metadata?.sit_category ?? scanSitCategory] *)
Definition candidate_sitCategory (scanSitCategory : option string)
    (c : Candidate) : option string :=
  nullish (meta sit_category c) scanSitCategory.

(** The object stored for the first candidate of a key. *)
Definition new_group (scanSitCategory : option string) (c : Candidate)
    : Group.t :=
  let fileName := meta file_name c in
  let sitCategory := candidate_sitCategory scanSitCategory c in
  let extractionModule := meta extraction_module c in
  let ocrPerformed := meta ocr_performed c in
  {| Group.key := candidate_key c;
     Group.candidate_id := candidate_id c;
     Group.candidate_type := candidate_type c;
     Group.value := value c;
     Group.score := score c;
     Group.frequency := frequency c;
     Group.fileNames :=
       match fileName with
       | Some f => if truthy_string f then [f] else []
       | None => []
       end;
     Group.sitCategory := sitCategory;
     Group.extractionModules :=
       match extractionModule with
       | Some m => if truthy_string m then [m] else []
       | None => []
       end;
     Group.ocrStates :=
       match ocrPerformed with
       | Some b => [b]
       | None => []
       end |}.

(** The in-place updates of [existing] for a later candidate of its key.
    The count is added exactly, as the code adds it while the sum is a safe
    integer; [double_add] is the addition beyond that. *)
Definition merge_into (scanSitCategory : option string)
    (existing : Group.t) (c : Candidate) : Group.t :=
  let fileName := meta file_name c in
  let sitCategory := candidate_sitCategory scanSitCategory c in
  let extractionModule := meta extraction_module c in
  let ocrPerformed := meta ocr_performed c in
  {| Group.key := Group.key existing;
     Group.candidate_id := Group.candidate_id existing;
     Group.candidate_type := Group.candidate_type existing;
     Group.value := Group.value existing;
     Group.score :=
       if (nullish_or (score c) (-1) >?
           nullish_or (Group.score existing) (-1))%Z
       then score c else Group.score existing;
     Group.frequency := (Group.frequency existing + frequency c)%Z;
     Group.fileNames :=
       match fileName with
       | Some f =>
           if truthy_string f
              && negb (includes_string f (Group.fileNames existing))
           then Group.fileNames existing ++ [f]
           else Group.fileNames existing
       | None => Group.fileNames existing
       end;
     Group.sitCategory :=
       if negb (truthy (Group.sitCategory existing)) && truthy sitCategory
       then sitCategory else Group.sitCategory existing;
     Group.extractionModules :=
       match extractionModule with
       | Some m =>
           if truthy_string m
              && negb (includes_string m (Group.extractionModules existing))
           then Group.extractionModules existing ++ [m]
           else Group.extractionModules existing
       | None => Group.extractionModules existing
       end;
     Group.ocrStates :=
       match ocrPerformed with
       | Some b =>
           if negb (includes_bool b (Group.ocrStates existing))
           then Group.ocrStates existing ++ [b]
           else Group.ocrStates existing
       | None => Group.ocrStates existing
       end |}.

(** One iteration of [for (const candidate of candidates)]. *)
Definition group_step (scanSitCategory : option string)
    (grouped : JsMap.t Group.t) (c : Candidate) : JsMap.t Group.t :=
  let key := candidate_key c in
  match JsMap.get key grouped with
  | None => JsMap.set key (new_group scanSitCategory c) grouped
  | Some existing =>
      JsMap.set key (merge_into scanSitCategory existing c) grouped
  end.

(** The map after the loop. *)
Definition grouped_map (scanSitCategory : option string)
    (candidates : list Candidate) : JsMap.t Group.t :=
  fold_left (group_step scanSitCategory) candidates JsMap.empty.

(** [(a, b) => (b.score ?? -1) - (a.score ?? -1)] *)
Definition by_score_desc (a b : Group.t) : Z :=
  (nullish_or (Group.score b) (-1) - nullish_or (Group.score a) (-1))%Z.

Definition groupedCandidates (scanSitCategory : option string)
    (candidates : list Candidate) : list Group.t :=
  array_sort by_score_desc (JsMap.values (grouped_map scanSitCategory candidates)).

(** ** Presentation of the OCR column *)

Module ScanSummary.
Record t := {
  scan_id : string;
  name : option string;
  scan_type : string;
  status : string;
  source_files_count : option Z
}.
End ScanSummary.

(** [ScanDetail]: the fields the workbench copies into the active summary. *)
Module ScanDetail.
Record t := {
  scan_id : string;
  name : option string;
  scan_type : string;
  status : string;
  source_files_count : option Z;
  metadata_sit_category : option string
}.
End ScanDetail.

(** The object held by [activeScanSummary]. *)
Module ActiveScan.
Record t := {
  scan_type : string;
  status : string;
  source_files_count : option Z
}.
End ActiveScan.

(** [scans.find((scan) => scan.scan_id === selectedScanId) ?? null] *)
Definition selectedScan (scans : list ScanSummary.t) (selectedScanId : string)
    : option ScanSummary.t :=
  List.find (fun scan => String.eqb (ScanSummary.scan_id scan) selectedScanId)
    scans.

(** [selectedScan ?? (scanDetails ? {...} : null)] *)
Definition activeScanSummary (selected : option ScanSummary.t)
    (scanDetails : option ScanDetail.t) : option ActiveScan.t :=
  match selected with
  | Some s =>
      Some {| ActiveScan.scan_type := ScanSummary.scan_type s;
              ActiveScan.status := ScanSummary.status s;
              ActiveScan.source_files_count := ScanSummary.source_files_count s |}
  | None =>
      match scanDetails with
      | Some d =>
          Some {| ActiveScan.scan_type := ScanDetail.scan_type d;
                  ActiveScan.status := ScanDetail.status d;
                  ActiveScan.source_files_count :=
                    ScanDetail.source_files_count d |}
      | None => None
      end
  end.

(** [activeScanSummary?.scan_type === 'sentence_transformer'] *)
Definition ocrColumnNotApplicable (active : option ActiveScan.t) : bool :=
  match active with
  | Some a => String.eqb (ActiveScan.scan_type a) "sentence_transformer"
  | None => false
  end.

(** The text of the OCR cell of one table row. *)
Definition ocr_cell (notApplicable : bool) (candidate : Group.t) : string :=
  if notApplicable then "N/A"
  else
    match Group.ocrStates candidate with
    | [] => "-"
    | [b] => if b then "Yes" else "No"
    | _ => "Mixed"
    end.

(** The OCR column of the rendered table. *)
Definition ocr_column (active : option ActiveScan.t)
    (scanSitCategory : option string) (candidates : list Candidate)
    : list string :=
  map (ocr_cell (ocrColumnNotApplicable active))
    (groupedCandidates scanSitCategory candidates).

(** ** Working file set ([mergeFiles]) *)

(** A browser [File]: its byte length is the length of its content. *)
Module File.
Record t := {
  name : string;
  content : string;
  type : string;
  lastModified : Z
}.
Definition size (f : t) : Z := Z.of_nat (String.length (content f)).

(** [new File([file], newName, { type: file.type, lastModified: file.lastModified })] *)
Definition renamed (newName : string) (f : t) : t :=
  {| name := newName; content := content f; type := type f;
     lastModified := lastModified f |}.
End File.

(** [`${file.name}:${file.size}:${file.lastModified}`]; an integer prints in
    decimal, with a leading minus sign when negative. *)
Definition file_key (f : File.t) : string :=
  File.name f +:+ ":" +:+ pretty (File.size f) +:+ ":"
    +:+ pretty (File.lastModified f).

(** The new value of the [files] state after [mergeFiles(incoming)]: with no
    incoming file the state is not touched. *)
Definition mergeFiles (prev incoming : list File.t) : list File.t :=
  match incoming with
  | [] => prev
  | _ :: _ =>
      let map := JsMap.of_entries (List.map (fun file => (file_key file, file)) prev) in
      let map := fold_left (fun m file => JsMap.set (file_key file) file m) incoming map in
      JsMap.values map
  end.

(** The values the [files] state can take: it starts empty, [mergeFiles]
    adds to it and a successful submission clears it. *)
Inductive files_state : list File.t -> Prop :=
  | files_initial : files_state []
  | files_merged prev incoming :
      files_state prev -> files_state (mergeFiles prev incoming).

(** ** Source collector *)

(** A [FileSystemEntry] as the drop target sees it. A file entry answers
    [file()] with a [File] or an error. A directory entry hands out a
    reader; the entry carries the answers its reader gives to successive
    [readEntries] calls, each a batch or an error, and once they are used up
    the reader answers with the empty batch. *)
Inductive FileSystemEntry :=
  | FileEntry (name : string) (file : option File.t)
  | DirectoryEntry (name : string)
      (reads : list (option (list FileSystemEntry)))
  | OtherEntry (name : string).

(** [readAllDirectoryEntries]: ask for batches until one is empty; a rejected
    read rejects the whole call ([None]). *)
Fixpoint readAllDirectoryEntries {E} (reader : list (option (list E)))
    : option (list E) :=
  match reader with
  | [] => Some []
  | None :: _ => None
  | Some [] :: _ => Some []
  | Some batch :: reader' =>
      match readAllDirectoryEntries reader' with
      | Some all => Some (batch ++ all)
      | None => None
      end
  end.

(** [Promise.all(xs.map(f))]: every result, or a rejection. *)
Fixpoint promise_all {A B} (f : A -> option B) (xs : list A)
    : option (list B) :=
  match xs with
  | [] => Some []
  | x :: xs' =>
      match f x, promise_all f xs' with
      | Some y, Some ys => Some (y :: ys)
      | _, _ => None
      end
  end.

(** [(await Promise.all(xs.map(f))).flat()] *)
Definition collect_all {A B} (f : A -> option (list B)) (xs : list A)
    : option (list B) :=
  match promise_all f xs with
  | Some nested => Some (concat nested)
  | None => None
  end.

(** [parentPath ? `${parentPath}/${entry.name}` : entry.name] *)
Definition next_path (parentPath name : string) : string :=
  if truthy_string parentPath then parentPath +:+ "/" +:+ name else name.

(** [collectFilesFromEntry]. The recursion goes through the batches of the
    directory's reader; [collectFilesFromEntry_directory] below gives the
    directory case in the shape of the source. *)
Fixpoint collectFilesFromEntry (entry : FileSystemEntry) (parentPath : string)
    {struct entry} : option (list File.t) :=
  match entry with
  | FileEntry _ None => None
  | FileEntry _ (Some file) =>
      if truthy_string parentPath
      then Some [File.renamed (parentPath +:+ "/" +:+ File.name file) file]
      else Some [file]
  | DirectoryEntry name reads =>
      let nextPath := next_path parentPath name in
      (fix read_loop (reader : list (option (list FileSystemEntry)))
         : option (list File.t) :=
         match reader with
         | [] => Some []
         | None :: _ => None
         | Some [] :: _ => Some []
         | Some batch :: reader' =>
             match
               (fix visit (children : list FileSystemEntry)
                  : option (list File.t) :=
                  match children with
                  | [] => Some []
                  | child :: children' =>
                      match collectFilesFromEntry child nextPath,
                            visit children' with
                      | Some fs, Some rest => Some (fs ++ rest)
                      | _, _ => None
                      end
                  end) batch,
               read_loop reader'
             with
             | Some fs, Some rest => Some (fs ++ rest)
             | _, _ => None
             end
         end) reads
  | OtherEntry _ => Some []
  end.

(** A [DataTransferItem]: [webkitGetAsEntry] may be missing (outer [None])
    or return [null] (inner [None]). *)
Record DataTransferItem := {
  webkitGetAsEntry : option (option FileSystemEntry)
}.

Record DataTransfer := {
  items : option (list DataTransferItem);
  files : option (list File.t)
}.

(** The truthy results of [item.webkitGetAsEntry?.()]. *)
Definition dropped_entries (dataTransfer : DataTransfer)
    : list FileSystemEntry :=
  omap (fun item =>
          match webkitGetAsEntry item with
          | Some (Some entry) => Some entry
          | _ => None
          end)
    (nullish_or (items dataTransfer) []).

(** [Array.from(dataTransfer.files ?? [])] *)
Definition flat_files (dataTransfer : DataTransfer) : list File.t :=
  nullish_or (files dataTransfer) [].

Definition extractDroppedFiles (dataTransfer : DataTransfer)
    : option (list File.t) :=
  let entries := dropped_entries dataTransfer in
  match entries with
  | [] => Some (flat_files dataTransfer)
  | _ :: _ =>
      match collect_all (fun entry => collectFilesFromEntry entry "") entries with
      | None => None
      | Some files =>
          Some (match files with
                | [] => flat_files dataTransfer
                | _ :: _ => files
                end)
      end
  end.

(** ** Scan submission ([submitScan] and [api.createScan]) *)

(** White space removed by [String.prototype.trim] (the WhiteSpace and
    LineTerminator code points), in UTF-8: one byte for U+0009 to U+000D and
    U+0020; two bytes for U+00A0; three bytes for U+1680, U+2000 to U+200A,
    U+2028, U+2029, U+202F, U+205F, U+3000 and U+FEFF. *)
Definition is_white_space (a : ascii) : bool :=
  let n := N_of_ascii a in
  ((9 <=? n)%N && (n <=? 13)%N) || (n =? 32)%N.

Definition is_white_space2 (a b : ascii) : bool :=
  (N_of_ascii a =? 194)%N && (N_of_ascii b =? 160)%N.

Definition is_white_space3 (a b c : ascii) : bool :=
  let x := N_of_ascii a in
  let y := N_of_ascii b in
  let z := N_of_ascii c in
  ((x =? 225)%N && (y =? 154)%N && (z =? 128)%N)
  || ((x =? 226)%N && (y =? 128)%N
      && (((128 <=? z)%N && (z <=? 138)%N) || (z =? 168)%N || (z =? 169)%N
          || (z =? 175)%N))
  || ((x =? 226)%N && (y =? 129)%N && (z =? 159)%N)
  || ((x =? 227)%N && (y =? 128)%N && (z =? 128)%N)
  || ((x =? 239)%N && (y =? 187)%N && (z =? 191)%N).

(** Removes from the front every sequence of one, two or three bytes that
    [w1], [w2] or [w3] accepts. *)
Fixpoint strip_leading (w1 : ascii -> bool) (w2 : ascii -> ascii -> bool)
    (w3 : ascii -> ascii -> ascii -> bool) (s : string) : string :=
  match s with
  | EmptyString => EmptyString
  | String a s1 =>
      if w1 a then strip_leading w1 w2 w3 s1
      else
        match s1 with
        | String b s2 =>
            if w2 a b then strip_leading w1 w2 w3 s2
            else
              match s2 with
              | String c s3 =>
                  if w3 a b c then strip_leading w1 w2 w3 s3 else s
              | EmptyString => s
              end
        | EmptyString => s
        end
  end.

Definition trim_start (s : string) : string :=
  strip_leading is_white_space is_white_space2 is_white_space3 s.

(** The same from the end: on the reversed string the bytes of a code point
    come last byte first. *)
Definition trim_end (s : string) : string :=
  String.rev
    (strip_leading is_white_space
       (fun b a => is_white_space2 a b)
       (fun c b a => is_white_space3 a b c)
       (String.rev s)).

Definition trim (s : string) : string := trim_end (trim_start s).

(** [s.padStart(targetLength, '0')] *)
Definition padStart0 (targetLength : nat) (s : string) : string :=
  String.concat "" (replicate (targetLength - String.length s)%nat "0") +:+ s.

(** The local time fields of [new Date()] that the default name uses. *)
Record LocalTime := {
  getFullYear : Z;
  getMonth : Z;
  getDate : Z;
  getHours : Z;
  getMinutes : Z
}.

Definition formatDefaultScanName (now : LocalTime) (fileName : string)
    : string :=
  let yyyy := pretty (getFullYear now) in
  let mm := padStart0 2 (pretty (getMonth now + 1)%Z) in
  let dd := padStart0 2 (pretty (getDate now)) in
  let hh := padStart0 2 (pretty (getHours now)) in
  let min := padStart0 2 (pretty (getMinutes now)) in
  fileName +:+ "-" +:+ yyyy +:+ "-" +:+ mm +:+ "-" +:+ dd +:+ "-" +:+ hh
    +:+ min.

Inductive ScanType := classic_nlp | sentence_transformer.

Definition ScanType_eqb (a b : ScanType) : bool :=
  match a, b with
  | classic_nlp, classic_nlp | sentence_transformer, sentence_transformer =>
      true
  | _, _ => false
  end.

Definition ScanType_string (t : ScanType) : string :=
  match t with
  | classic_nlp => "classic_nlp"
  | sentence_transformer => "sentence_transformer"
  end.

(** [sitCategoryOptions] *)
Inductive SitCategoryOption :=
  | FinancialServices | Healthcare | Insurance | Government | Legal
  | Education | Retail | Telecommunications | EnergyAndUtilities | Technology
  | Manufacturing | TransportationAndLogistics | HospitalityAndTravel
  | Custom.

Definition SitCategoryOption_string (o : SitCategoryOption) : string :=
  match o with
  | FinancialServices => "Financial Services"
  | Healthcare => "Healthcare"
  | Insurance => "Insurance"
  | Government => "Government"
  | Legal => "Legal"
  | Education => "Education"
  | Retail => "Retail"
  | Telecommunications => "Telecommunications"
  | EnergyAndUtilities => "Energy and Utilities"
  | Technology => "Technology"
  | Manufacturing => "Manufacturing"
  | TransportationAndLogistics => "Transportation and Logistics"
  | HospitalityAndTravel => "Hospitality and Travel"
  | Custom => "Custom"
  end.

(** The state of the submission form. *)
Module Form.
Record t := {
  scanName : string;
  sitCategory : SitCategoryOption;
  customSitCategory : string;
  preserveCase : bool;
  forceOcr : bool;
  scanType : ScanType;
  userPrincipalName : string;
  exchangeToken : option string;
  exchangeOrganization : string;
  files : list File.t
}.

Definition setForceOcr (b : bool) (st : t) : t :=
  {| scanName := scanName st; sitCategory := sitCategory st;
     customSitCategory := customSitCategory st;
     preserveCase := preserveCase st; forceOcr := b;
     scanType := scanType st; userPrincipalName := userPrincipalName st;
     exchangeToken := exchangeToken st;
     exchangeOrganization := exchangeOrganization st; files := files st |}.

Definition setScanType (ty : ScanType) (st : t) : t :=
  {| scanName := scanName st; sitCategory := sitCategory st;
     customSitCategory := customSitCategory st;
     preserveCase := preserveCase st; forceOcr := forceOcr st;
     scanType := ty; userPrincipalName := userPrincipalName st;
     exchangeToken := exchangeToken st;
     exchangeOrganization := exchangeOrganization st; files := files st |}.
End Form.

(** The effect on [[scanType, forceOcr]]:
    [if (scanType === 'sentence_transformer' && forceOcr) setForceOcr(false)] *)
Definition forceOcr_effect (st : Form.t) : Form.t :=
  if ScanType_eqb (Form.scanType st) sentence_transformer && Form.forceOcr st
  then Form.setForceOcr false st
  else st.

(** The scan-type selector's [onChange], followed by the effect it triggers. *)
Definition select_scan_type (ty : ScanType) (st : Form.t) : Form.t :=
  forceOcr_effect (Form.setScanType ty st).

(** The force-OCR checkbox's [onChange], followed by the effect. *)
Definition toggle_force_ocr (checked : bool) (st : Form.t) : Form.t :=
  forceOcr_effect (Form.setForceOcr checked st).

(** The [options] argument of [api.createScan]. *)
Module CreateScanOptions.
Record t := {
  name : string;
  scanType : ScanType;
  sitCategory : string;
  userPrincipalName : option string;
  exchangeAccessToken : option string;
  exchangeOrganization : option string;
  preserveCase : bool;
  forceOcr : bool
}.
End CreateScanOptions.

(** [s || undefined] *)
Definition or_undefined (s : option string) : option string :=
  if truthy s then s else None.

(** What one run of [submitScan] does up to the request: it sets an error
    and returns, or it calls [api.createScan]. *)
Inductive SubmitOutcome :=
  | Rejected (error : string)
  | ScanRequested (files : list File.t) (options : CreateScanOptions.t).

Definition submitScan (now : LocalTime) (st : Form.t) : SubmitOutcome :=
  match Form.files st with
  | [] => Rejected "Select at least one file to scan."
  | first :: _ =>
      if ScanType_eqb (Form.scanType st) sentence_transformer
         && negb (truthy_string (trim (Form.userPrincipalName st)))
      then Rejected "User principal name is required for SentenceTransformer scans."
      else if ScanType_eqb (Form.scanType st) sentence_transformer
              && negb (truthy (Form.exchangeToken st))
      then Rejected "Authenticate with Microsoft before running a SentenceTransformer scan."
      else
        let effectiveScanName :=
          if truthy_string (trim (Form.scanName st))
          then trim (Form.scanName st)
          else formatDefaultScanName now (File.name first) in
        let effectiveSitCategory :=
          match Form.sitCategory st with
          | Custom => trim (Form.customSitCategory st)
          | other => SitCategoryOption_string other
          end in
        if negb (truthy_string effectiveSitCategory)
        then Rejected "Enter a custom SIT Category or select a predefined category."
        else
          ScanRequested (Form.files st)
            {| CreateScanOptions.name := effectiveScanName;
               CreateScanOptions.scanType := Form.scanType st;
               CreateScanOptions.sitCategory := effectiveSitCategory;
               CreateScanOptions.userPrincipalName :=
                 or_undefined (Some (Form.userPrincipalName st));
               CreateScanOptions.exchangeAccessToken :=
                 or_undefined (Form.exchangeToken st);
               CreateScanOptions.exchangeOrganization :=
                 or_undefined (Some (Form.exchangeOrganization st));
               CreateScanOptions.preserveCase := Form.preserveCase st;
               CreateScanOptions.forceOcr :=
                 if ScanType_eqb (Form.scanType st) classic_nlp
                 then Form.forceOcr st else false |}
  end.

(** The fields of the multipart form that [api.createScan] posts. *)
Inductive FormValue :=
  | FormFile (file : File.t)
  | FormText (text : string).

Definition form_text (field : string) (v : option string)
    : list (string * FormValue) :=
  match v with
  | Some s => if truthy_string s then [(field, FormText s)] else []
  | None => []
  end.

Definition form_flag (field : string) (b : bool)
    : list (string * FormValue) :=
  if b then [(field, FormText "true")] else [].

Definition createScan_form (files : list File.t)
    (options : CreateScanOptions.t) : list (string * FormValue) :=
  List.map (fun file => ("files", FormFile file)) files
  ++ form_text "name" (Some (CreateScanOptions.name options))
  ++ form_text "scan_type"
       (Some (ScanType_string (CreateScanOptions.scanType options)))
  ++ form_text "sit_category" (Some (CreateScanOptions.sitCategory options))
  ++ form_text "user_principal_name"
       (CreateScanOptions.userPrincipalName options)
  ++ form_text "exchange_access_token"
       (CreateScanOptions.exchangeAccessToken options)
  ++ form_text "exchange_organization"
       (CreateScanOptions.exchangeOrganization options)
  ++ form_flag "preserve_case" (CreateScanOptions.preserveCase options)
  ++ form_flag "force_ocr" (CreateScanOptions.forceOcr options).

(** The requests to [POST /scans] made by one submission. *)
Definition scan_requests (outcome : SubmitOutcome)
    : list (list (string * FormValue)) :=
  match outcome with
  | Rejected _ => []
  | ScanRequested files options => [createScan_form files options]
  end.

(** * Definitions used to state the properties *)

(** The comparator [(a, b) => rank(b) - rank(a)]. *)
Definition descending {A} (rank : A -> Z) (a b : A) : Z :=
  (rank b - rank a)%Z.

(** The candidates of a pool that carry a given key, in pool order. *)
Definition members (k : string) (candidates : list Candidate)
    : list Candidate :=
  filter (fun c => candidate_key c = k) candidates.

(** The group built from the members of one key. *)
Definition group_of (scanSitCategory : option string) (ms : list Candidate)
    : option Group.t :=
  match ms with
  | [] => None
  | c :: rest =>
      Some (fold_left (merge_into scanSitCategory) rest
              (new_group scanSitCategory c))
  end.

(** A score with a missing one read as [-1], as the code compares them. *)
Definition effective_score (s : option Z) : Z := nullish_or s (-1).

(** The largest integer below which every integer is a double. *)
Definition MAX_SAFE_INTEGER : Z := (2 ^ 53 - 1)%Z.

(** The double nearest to an integer, ties to even: an integer of magnitude
    up to 2^53 is a double, a larger one is rounded to 53 significant bits
    (overflow to infinity, beyond 2^1024, is left out). *)
Definition round_to_double (z : Z) : Z :=
  if (Z.abs z <=? 2 ^ 53)%Z then z
  else
    let ulp := (2 ^ (Z.log2 (Z.abs z) - 52))%Z in
    let q := (Z.abs z / ulp)%Z in
    let r := (Z.abs z mod ulp)%Z in
    let rounded :=
      if (2 * r <? ulp)%Z then q
      else if (ulp <? 2 * r)%Z then (q + 1)%Z
      else if Z.even q then q else (q + 1)%Z in
    (Z.sgn z * (rounded * ulp))%Z.

(** [a + b] on two integer-valued doubles. *)
Definition double_add (a b : Z) : Z := round_to_double (a + b).

(** The occurrence count of a group as the loop adds it up in doubles: the
    first member's count, then [+=] the count of each later member. *)
Definition double_frequency (ms : list Candidate) : Z :=
  match ms with
  | [] => 0%Z
  | c :: rest =>
      fold_left (fun acc later => double_add acc (frequency later)) rest
        (frequency c)
  end.

(** The occurrence counts of a list of candidates, added up. *)
Definition sum_frequency (ms : list Candidate) : Z :=
  foldr (fun c acc => frequency c + acc)%Z 0%Z ms.

(** A pool whose occurrence counts are not negative and add up to a safe
    integer, so that every addition of counts is exact. *)
Definition safe_counts (pool : list Candidate) : Prop :=
  Forall (fun c => 0 <= frequency c)%Z pool /\
  (sum_frequency pool <= MAX_SAFE_INTEGER)%Z.

(** The order of scores as the specification words it: "candidates carrying
    no score [are] treated as lower than any concrete score, never equal".
    [spec_not_lower a b] says that score [a] is not lower than score [b] in
    that order. *)
Definition spec_not_lower (a b : option Z) : Prop :=
  match a, b with
  | Some x, Some y => (y <= x)%Z
  | Some _, None => True
  | None, Some _ => False
  | None, None => True
  end.

(** A result list in descending order of score, in the specification's order
    of scores. *)
Definition spec_sorted (rows : list Group.t) : Prop :=
  StronglySorted
    (fun a b => spec_not_lower (Group.score a) (Group.score b)) rows.

(** The label as the specification words it: the first label carried by a
    member, and the scan-level default only when no member carries one. *)
Definition spec_label (scanSitCategory : option string)
    (ms : list Candidate) : option string :=
  match omap (meta sit_category) ms with
  | l :: _ => Some l
  | [] => scanSitCategory
  end.

(** The label the loop computes: each member counts with its own label or,
    lacking one, with the scan-level default; the first non-empty of these
    wins, and with no non-empty one the first member's stays. *)
Definition aggregated_label (scanSitCategory : option string)
    (ms : list Candidate) : option string :=
  let labels := List.map (candidate_sitCategory scanSitCategory) ms in
  match List.find truthy labels with
  | Some l => l
  | None =>
      match labels with
      | l :: _ => l
      | [] => None
      end
  end.

(** Whether a string contains a colon, the separator of [file_key]. *)
Fixpoint has_colon (s : string) : bool :=
  match s with
  | EmptyString => false
  | String a s' => Ascii.eqb a ":" || has_colon s'
  end.

(** Two files have the same identity when they agree on name, byte length
    and last-modified time. *)
Definition same_identity (f g : File.t) : Prop :=
  File.name f = File.name g /\ File.size f = File.size g /\
  File.lastModified f = File.lastModified g.

(** The entries [mergeFiles] builds its map from. *)
Definition file_entries (fs : list File.t) : JsMap.t File.t :=
  List.map (fun file => (file_key file, file)) fs.

(** A map of files in which every file sits under its own key, once. *)
Definition keyed_by_identity (m : JsMap.t File.t) : Prop :=
  NoDup (JsMap.keys m) /\ Forall (fun kv => fst kv = file_key (snd kv)) m.

(** The item a drop hands over for an entry. *)
Definition entry_item (entry : FileSystemEntry) : DataTransferItem :=
  {| webkitGetAsEntry := Some (Some entry) |}.

(** A directory whose reader hands out the given batches. *)
Definition directory (name : string) (batches : list (list FileSystemEntry))
    : FileSystemEntry :=
  DirectoryEntry name (List.map Some batches).

(** A raw candidate of the scenario; what the scenario leaves open (its id,
    occurrence count, category and module) is a parameter. *)
Definition ssn_candidate (file : string) (s : Z) (ocr : bool)
    (id : string) (count : Z) (category module : option string) : Candidate :=
  {| candidate_id := id;
     candidate_type := "SSN";
     value := "123-45-6789";
     score := Some s;
     frequency := count;
     metadata :=
       Some {| file_name := Some file;
               sit_category := category;
               extraction_module := module;
               ocr_performed := Some ocr |} |}.

(** A candidate of the key "A::x" with a given occurrence count. *)
Definition counted_candidate (count : Z) : Candidate :=
  {| candidate_id := "A"; candidate_type := "A"; value := "x";
     score := None; frequency := count; metadata := None |}.

(** A candidate with only a type, a value and a score. *)
Definition bare_candidate (ty v : string) (s : option Z) : Candidate :=
  {| candidate_id := ty; candidate_type := ty; value := v; score := s;
     frequency := 1; metadata := None |}.

(** A candidate with a type, a value and possibly its own category label. *)
Definition labelled_candidate (ty v : string) (category : option string)
    : Candidate :=
  {| candidate_id := ty; candidate_type := ty; value := v; score := None;
     frequency := 1;
     metadata :=
       Some {| file_name := None; sit_category := category;
               extraction_module := None; ocr_performed := None |} |}.

(** Two versions of "a.txt" with one identity, and another file. *)
Definition a_txt : File.t :=
  {| File.name := "a.txt"; File.content := "hello";
     File.type := "text/plain"; File.lastModified := 1700000000000 |}.

Definition a_txt_again : File.t :=
  {| File.name := "a.txt"; File.content := "HELLO";
     File.type := "text/plain"; File.lastModified := 1700000000000 |}.

Definition b_txt : File.t :=
  {| File.name := "b.txt"; File.content := "other";
     File.type := "text/plain"; File.lastModified := 1700000000500 |}.

Definition c_txt : File.t :=
  {| File.name := "c.txt"; File.content := "flat";
     File.type := "text/plain"; File.lastModified := 1700000000900 |}.

(** A completed sentence-transformer scan in the list of scans. *)
Definition bridged_scan : ScanSummary.t :=
  {| ScanSummary.scan_id := "scan-1";
     ScanSummary.name := Some "Q1 Financial Docs";
     ScanSummary.scan_type := "sentence_transformer";
     ScanSummary.status := "COMPLETED";
     ScanSummary.source_files_count := Some 2%Z |}.

(** A form filled in for a sentence-transformer scan of "c.txt", with the
    force-OCR box still ticked. *)
Definition bridged_form (token : option string) (files : list File.t)
    : Form.t :=
  {| Form.scanName := "Q1 Financial Docs";
     Form.sitCategory := FinancialServices;
     Form.customSitCategory := "";
     Form.preserveCase := false;
     Form.forceOcr := true;
     Form.scanType := sentence_transformer;
     Form.userPrincipalName := "name@company.com";
     Form.exchangeToken := token;
     Form.exchangeOrganization := "";
     Form.files := files |}.

Definition noon : LocalTime :=
  {| getFullYear := 2024; getMonth := 0; getDate := 5; getHours := 12;
     getMinutes := 0 |}.

(** * More of the page *)

(** ** JavaScript [Set] of strings

    A [Set] keeps its elements in insertion order and holds none twice. *)

Module JsSet.

Definition t : Type := list string.

Definition empty : t := [].

Definition has (x : string) (s : t) : bool := includes_string x s.

Definition add (x : string) (s : t) : t := if has x s then s else s ++ [x].

Definition delete (x : string) (s : t) : t :=
  List.filter (fun y => negb (String.eqb y x)) s.

Definition size (s : t) : nat := length s.

(** [new Set(iterable)] *)
Definition of_list (l : list string) : t :=
  fold_left (fun s x => add x s) l empty.

End JsSet.

(** ** Progress of the selected scan *)

(** A value of type [unknown], as read from [scanDetails.metadata]. *)
Inductive JsValue :=
  | JsNumber (n : Z)
  | JsString (s : string)
  | JsBoolean (b : bool)
  | JsNull
  | JsObject.

(** The [ScanDetail] interface in full; [metadata] is a record of unknowns. *)
Module Detail.
Record t := {
  scan_id : string;
  name : option string;
  scan_type : string;
  status : string;
  source_files_count : option Z;
  extracted_text_length : option Z;
  ocr_confidence_avg : option Z;
  extraction_duration_sec : option Z;
  analysis_duration_sec : option Z;
  created_at : string;
  completed_at : option string;
  metadata : option (JsMap.t JsValue)
}.
End Detail.

(** [scanDetails?.metadata?.[key]] *)
Definition metadata_field (key : string) (scanDetails : option Detail.t)
    : option JsValue :=
  match scanDetails with
  | Some d =>
      match Detail.metadata d with
      | Some m => JsMap.get key m
      | None => None
      end
  | None => None
  end.

(** [typeof raw === 'number' ? raw : null] *)
Definition as_number (raw : option JsValue) : option Z :=
  match raw with
  | Some (JsNumber n) => Some n
  | _ => None
  end.

(** [typeof raw === 'string' ? raw : null] *)
Definition as_string (raw : option JsValue) : option string :=
  match raw with
  | Some (JsString s) => Some s
  | _ => None
  end.

(** [typeof raw === 'number' ? Math.max(0, Math.min(100, raw)) : null] *)
Definition progressPct (scanDetails : option Detail.t) : option Z :=
  match as_number (metadata_field "processing_progress_pct" scanDetails) with
  | Some raw => Some (Z.max 0 (Z.min 100 raw))
  | None => None
  end.

Definition progressPhase (scanDetails : option Detail.t) : option string :=
  as_string (metadata_field "processing_phase" scanDetails).

Definition currentFileName (scanDetails : option Detail.t) : option string :=
  as_string (metadata_field "current_file_name" scanDetails).

Definition filesDone (scanDetails : option Detail.t) : option Z :=
  as_number (metadata_field "files_completed" scanDetails).

Definition filesTotal (scanDetails : option Detail.t) : option Z :=
  as_number (metadata_field "files_total" scanDetails).

Definition scanSitCategory (scanDetails : option Detail.t) : option string :=
  as_string (metadata_field "sit_category" scanDetails).

(** ** Awaited calls *)

(** How an awaited call ends: with a value, or by throwing; a thrown [Error]
    carries its message. *)
Inductive Settled (A : Type) :=
  | Resolves (a : A)
  | Throws (message : option string).
Arguments Resolves {A} a.
Arguments Throws {A} message.

(** [err instanceof Error ? err.message : fallback] *)
Definition error_text (fallback : string) (message : option string)
    : string :=
  nullish_or message fallback.

(** ** Delete mode *)

(** The updater of [toggleScanForDelete]. *)
Definition toggleScanForDelete (scanId : string) (prev : JsSet.t) : JsSet.t :=
  if JsSet.has scanId prev then JsSet.delete scanId prev
  else JsSet.add scanId prev.

(** [scans.length > 0 && scanIdsToDelete.size === scans.length] *)
Definition allScansSelected (scans : list ScanSummary.t)
    (scanIdsToDelete : JsSet.t) : bool :=
  (0 <? length scans)%nat
  && (JsSet.size scanIdsToDelete =? length scans)%nat.

(** The new selection after [toggleSelectAllForDelete]. *)
Definition toggleSelectAllForDelete (scans : list ScanSummary.t)
    (scanIdsToDelete : JsSet.t) : JsSet.t :=
  if allScansSelected scans scanIdsToDelete then JsSet.empty
  else JsSet.of_list (List.map ScanSummary.scan_id scans).

(** The state that [deleteSelectedScans] reads and writes. *)
Module DeletePage.
Record t := {
  selectedScanId : string;
  scanIdsToDelete : JsSet.t;
  error : option string
}.
End DeletePage.

(** [deleteSelectedScans]: the scans it asks [api.deleteScan] to delete, and
    the state it leaves. [deleted] is how [Promise.all] over the deletions
    ends and [refreshed] how [refreshScans] ends; a rejection of either sets
    the error, and when a deletion is rejected the selection and the
    selected scan are kept. *)
Definition deleteSelectedScans (page : DeletePage.t)
    (deleted refreshed : Settled unit) : list string * DeletePage.t :=
  if (JsSet.size (DeletePage.scanIdsToDelete page) =? 0)%nat
  then
    ([],
     {| DeletePage.selectedScanId := DeletePage.selectedScanId page;
        DeletePage.scanIdsToDelete := DeletePage.scanIdsToDelete page;
        DeletePage.error := Some "Select at least one scan to delete." |})
  else
    (DeletePage.scanIdsToDelete page,
     match deleted with
     | Throws message =>
         {| DeletePage.selectedScanId := DeletePage.selectedScanId page;
            DeletePage.scanIdsToDelete := DeletePage.scanIdsToDelete page;
            DeletePage.error :=
              Some (error_text "Failed to delete scans" message) |}
     | Resolves _ =>
         let selected :=
           if truthy_string (DeletePage.selectedScanId page)
              && JsSet.has (DeletePage.selectedScanId page)
                   (DeletePage.scanIdsToDelete page)
           then "" else DeletePage.selectedScanId page in
         {| DeletePage.selectedScanId := selected;
            DeletePage.scanIdsToDelete := JsSet.empty;
            DeletePage.error :=
              match refreshed with
              | Throws message =>
                  Some (error_text "Failed to delete scans" message)
              | Resolves _ => None
              end |}
     end).

(** ** Choosing the scan to show *)

(** [['PENDING', 'EXTRACTING', 'ANALYZING'].includes(scan.status)] *)
Definition in_progress (scan : ScanSummary.t) : bool :=
  includes_string (ScanSummary.status scan)
    ["PENDING"; "EXTRACTING"; "ANALYZING"].

(** The effect on [[selectedScanId, scans, justCreatedScanId]]: the value of
    [selectedScanId] after it has run. *)
Definition auto_select (justCreatedScanId : option string)
    (selectedScanId : string) (scans : list ScanSummary.t) : string :=
  if truthy justCreatedScanId then
    match justCreatedScanId with
    | Some created =>
        if negb (String.eqb selectedScanId created) then created
        else selectedScanId
    | None => selectedScanId
    end
  else if truthy_string selectedScanId || (length scans =? 0)%nat
  then selectedScanId
  else
    match scans with
    | first :: _ =>
        ScanSummary.scan_id (nullish_or (List.find in_progress scans) first)
    | [] => selectedScanId
    end.

(** ** Loading the candidates of the selected scan *)

Inductive LoadAction :=
  | ClearCandidates
  | KeepCandidates
  | LoadCandidates (scanId : string).

(** The effect on [[selectedScanId, selectedScan?.status, scanDetails?.status,
    lastCandidatesLoadKey]]: the new [lastCandidatesLoadKey] and what happens
    to the candidates. *)
Definition candidates_effect (selectedScanId : string)
    (detailsStatus selectedStatus : option string)
    (lastCandidatesLoadKey : string) : string * LoadAction :=
  if negb (truthy_string selectedScanId) then ("", ClearCandidates)
  else
    let statusKey :=
      nullish_or (nullish detailsStatus selectedStatus) "UNKNOWN" in
    let loadKey := selectedScanId +:+ ":" +:+ statusKey in
    if String.eqb loadKey lastCandidatesLoadKey
    then (lastCandidatesLoadKey, KeepCandidates)
    else (loadKey, LoadCandidates selectedScanId).

(** ** The page around a submission *)

(** The state of the page that a submission reads and writes, the busy flag
    apart. *)
Module Page.
Record t := {
  form : Form.t;
  selectedScanId : string;
  justCreatedScanId : option string;
  lastCandidatesLoadKey : string;
  scanDetails : option Detail.t;
  error : option string
}.

Definition setError (e : option string) (p : t) : t :=
  {| form := form p; selectedScanId := selectedScanId p;
     justCreatedScanId := justCreatedScanId p;
     lastCandidatesLoadKey := lastCandidatesLoadKey p;
     scanDetails := scanDetails p; error := e |}.

Definition setScanDetails (d : option Detail.t) (p : t) : t :=
  {| form := form p; selectedScanId := selectedScanId p;
     justCreatedScanId := justCreatedScanId p;
     lastCandidatesLoadKey := lastCandidatesLoadKey p;
     scanDetails := d; error := error p |}.
End Page.

(** [setScanName('')] and [setFiles([])] *)
Definition clear_submitted (st : Form.t) : Form.t :=
  {| Form.scanName := ""; Form.sitCategory := Form.sitCategory st;
     Form.customSitCategory := Form.customSitCategory st;
     Form.preserveCase := Form.preserveCase st;
     Form.forceOcr := Form.forceOcr st;
     Form.scanType := Form.scanType st;
     Form.userPrincipalName := Form.userPrincipalName st;
     Form.exchangeToken := Form.exchangeToken st;
     Form.exchangeOrganization := Form.exchangeOrganization st;
     Form.files := [] |}.

(** The details shown for a scan that was just created. *)
Definition pending_details (newScanId effectiveScanName : string)
    (scanType : ScanType) (status : string) (fileCount : nat)
    (createdAt : string) : Detail.t :=
  {| Detail.scan_id := newScanId;
     Detail.name := Some effectiveScanName;
     Detail.scan_type := ScanType_string scanType;
     Detail.status := status;
     Detail.source_files_count := Some (Z.of_nat fileCount);
     Detail.extracted_text_length := None;
     Detail.ocr_confidence_avg := None;
     Detail.extraction_duration_sec := None;
     Detail.analysis_duration_sec := None;
     Detail.created_at := createdAt;
     Detail.completed_at := None;
     Detail.metadata :=
       Some [("processing_phase", JsString "pending");
             ("processing_progress_pct", JsNumber 0);
             ("files_completed", JsNumber 0);
             ("files_total", JsNumber (Z.of_nat fileCount))] |}.

(** The page after [submitScan] has run to its end: [created] is how
    [api.createScan] ends (with the new scan's id and status), [refreshed]
    how [refreshScans] ends and [fetched] how [api.getScan] ends;
    [createdAt] is [new Date().toISOString()]. *)
Definition submitScan_page (now : LocalTime) (createdAt : string)
    (page : Page.t) (created : Settled (string * string))
    (refreshed : Settled unit) (fetched : Settled Detail.t) : Page.t :=
  match submitScan now (Page.form page) with
  | Rejected error => Page.setError (Some error) page
  | ScanRequested files options =>
      match created with
      | Throws message =>
          Page.setError (Some (error_text "Failed to create scan" message))
            page
      | Resolves (scan_id, status) =>
          let shown :=
            {| Page.form := clear_submitted (Page.form page);
               Page.selectedScanId := scan_id;
               Page.justCreatedScanId := Some scan_id;
               Page.lastCandidatesLoadKey := "";
               Page.scanDetails :=
                 Some (pending_details scan_id
                         (CreateScanOptions.name options)
                         (Form.scanType (Page.form page)) status
                         (length files) createdAt);
               Page.error := None |} in
          match refreshed with
          | Throws message =>
              Page.setError
                (Some (error_text "Failed to create scan" message)) shown
          | Resolves _ =>
              match fetched with
              | Resolves details => Page.setScanDetails (Some details) shown
              | Throws _ => shown
              end
          end
      end
  end.

(** ** Microsoft sign-in *)



(** [String.prototype.includes] for one character. *)
Fixpoint includes_char (c : ascii) (s : string) : bool :=
  match s with
  | EmptyString => false
  | String a s' => Ascii.eqb a c || includes_char c s'
  end.

(** [String.prototype.split] with a separator of one character. *)
Fixpoint split_on (sep : ascii) (s : string) : list string :=
  match s with
  | EmptyString => [""]
  | String a s' =>
      if Ascii.eqb a sep then "" :: split_on sep s'
      else
        match split_on sep s' with
        | first :: rest => String a first :: rest
        | [] => [String a ""]
        end
  end.

(** [upn.includes('@') ? upn.split('@')[1] : ''] *)
Definition organization_of (upn : string) : string :=
  if includes_char "@" upn then nth 1 (split_on "@" upn) "" else "".




(** ** Definitions used to state the further properties *)

(** The occurrence counts of a list of rows, added up. *)
Definition total_frequency (rows : list Group.t) : Z :=
  foldr (fun g acc => Group.frequency g + acc)%Z 0%Z rows.

(** A file payload that a tree of entries holds. *)
Inductive holds_file : FileSystemEntry -> File.t -> Prop :=
  | holds_file_here name file : holds_file (FileEntry name (Some file)) file
  | holds_file_below name reads batch child file :
      Some batch ∈ reads -> child ∈ batch -> holds_file child file ->
      holds_file (DirectoryEntry name reads) file.

(** Induction over a tree of entries, with the property known for every
    entry of every batch of a directory. *)
Fixpoint FileSystemEntry_tree_ind (P : FileSystemEntry -> Prop)
    (Hfile : forall name file, P (FileEntry name file))
    (Hdir : forall name reads,
        Forall (fun read =>
                  match read with
                  | Some batch => Forall P batch
                  | None => True
                  end) reads ->
        P (DirectoryEntry name reads))
    (Hother : forall name, P (OtherEntry name))
    (entry : FileSystemEntry) {struct entry} : P entry :=
  match entry with
  | FileEntry name file => Hfile name file
  | DirectoryEntry name reads =>
      Hdir name reads
        ((fix all_reads (rs : list (option (list FileSystemEntry))) :=
            match rs return
              Forall (fun read =>
                        match read with
                        | Some batch => Forall P batch
                        | None => True
                        end) rs
            with
            | [] => List.Forall_nil _
            | read :: rs' =>
                List.Forall_cons _ read rs'
                  (match read return
                     match read with
                     | Some batch => Forall P batch
                     | None => True
                     end
                   with
                   | Some batch =>
                       (fix all_children (cs : list FileSystemEntry) :=
                          match cs return Forall P cs with
                          | [] => List.Forall_nil _
                          | c :: cs' =>
                              List.Forall_cons _ c cs'
                                (FileSystemEntry_tree_ind P Hfile Hdir Hother c)
                                (all_children cs')
                          end) batch
                   | None => I
                   end)
                  (all_reads rs')
            end) reads)
  | OtherEntry name => Hother name
  end.

(** * Properties *)

(** ** The [Map] model *)

Section JsMapFacts.
Context {V : Type}.
Implicit Types (m : JsMap.t V) (k : string) (v : V).

Lemma get_set_eq k v m : JsMap.get k (JsMap.set k v m) = Some v.
Proof.
  induction m as [|[k' v'] m IH]; simpl.
  - by rewrite String.eqb_refl.
  - destruct (String.eqb k k') eqn:E; simpl; rewrite E; [done|apply IH].
Qed.

Lemma get_set_ne k k' v m :
  k <> k' -> JsMap.get k' (JsMap.set k v m) = JsMap.get k' m.
Proof.
  intros Hne. induction m as [|[k0 v0] m IH]; simpl.
  - apply String.eqb_neq in Hne. rewrite String.eqb_sym in Hne.
    by rewrite Hne.
  - destruct (String.eqb_spec k k0) as [->|Hk]; simpl.
    + apply String.eqb_neq in Hne. rewrite String.eqb_sym in Hne.
      by rewrite Hne.
    + by rewrite IH.
Qed.

Lemma get_None_keys k m : JsMap.get k m = None <-> k ∉ JsMap.keys m.
Proof.
  induction m as [|[k' v'] m IH]; simpl.
  - split; [intros _; apply not_elem_of_nil|done].
  - rewrite not_elem_of_cons. destruct (String.eqb_spec k k') as [->|Hne].
    + split; [done|]. by intros [? _].
    + rewrite IH. tauto.
Qed.

Lemma get_Some_elem k v m : JsMap.get k m = Some v -> (k, v) ∈ m.
Proof.
  induction m as [|[k' v'] m IH]; simpl; [done|].
  destruct (String.eqb_spec k k') as [->|Hne].
  - intros [= ->]. apply elem_of_cons; by left.
  - intros H. apply elem_of_cons; right; auto.
Qed.

Lemma elem_get_Some k v m :
  NoDup (JsMap.keys m) -> (k, v) ∈ m -> JsMap.get k m = Some v.
Proof.
  induction m as [|[k' v'] m IH]; simpl.
  - intros _ H. by apply elem_of_nil in H.
  - rewrite NoDup_cons. intros [Hk' Hnd] [Heq|Hin]%elem_of_cons.
    + injection Heq as -> ->. by rewrite String.eqb_refl.
    + destruct (String.eqb_spec k k') as [->|Hne]; [|auto].
      exfalso. apply Hk'. unfold JsMap.keys.
      apply (list_elem_of_fmap_2 fst) in Hin. exact Hin.
Qed.

(** An existing key is overwritten where it stands. *)
Lemma set_existing k v m1 v0 m2 :
  k ∉ JsMap.keys m1 ->
  JsMap.set k v (m1 ++ (k, v0) :: m2) = m1 ++ (k, v) :: m2.
Proof.
  induction m1 as [|[k' v'] m1 IH]; simpl.
  - intros _. by rewrite String.eqb_refl.
  - rewrite not_elem_of_cons. intros [Hne Hk].
    apply String.eqb_neq in Hne. rewrite Hne. by rewrite IH.
Qed.

(** A new key goes to the end. *)
Lemma set_fresh k v m : k ∉ JsMap.keys m -> JsMap.set k v m = m ++ [(k, v)].
Proof.
  induction m as [|[k' v'] m IH]; simpl; [done|].
  rewrite not_elem_of_cons. intros [Hne Hk].
  apply String.eqb_neq in Hne. rewrite Hne. by rewrite IH.
Qed.

Lemma keys_set k v m :
  JsMap.keys (JsMap.set k v m) =
  match JsMap.get k m with
  | Some _ => JsMap.keys m
  | None => JsMap.keys m ++ [k]
  end.
Proof.
  induction m as [|[k' v'] m IH]; simpl; [done|].
  destruct (String.eqb k k') eqn:E; simpl; [done|].
  rewrite IH. by destruct (JsMap.get k m).
Qed.

Lemma NoDup_keys_set k v m :
  NoDup (JsMap.keys m) -> NoDup (JsMap.keys (JsMap.set k v m)).
Proof.
  intros Hnd. rewrite keys_set. destruct (JsMap.get k m) eqn:E; [done|].
  apply NoDup_app. split_and!; [done| |apply NoDup_singleton].
  intros x Hx ->%list_elem_of_singleton. by apply get_None_keys in E.
Qed.

Lemma elem_of_values v m :
  NoDup (JsMap.keys m) ->
  v ∈ JsMap.values m <-> exists k, JsMap.get k m = Some v.
Proof.
  intros Hnd. unfold JsMap.values. split.
  - intros ([k v'] & -> & Hin)%list_elem_of_fmap_1. exists k.
    by apply elem_get_Some.
  - intros [k Hk%get_Some_elem].
    by apply (list_elem_of_fmap_2 snd) in Hk.
Qed.
End JsMapFacts.

(** ** The sort *)

Lemma StronglySorted_lookup {A} (R : A -> A -> Prop) (l : list A) :
  StronglySorted R l ->
  forall i j x y,
    l !! i = Some x -> l !! j = Some y -> (i < j)%nat -> R x y.
Proof.
  induction 1 as [|z l Hs IH Hall]; intros i j x y Hi Hj Hij.
  - by rewrite lookup_nil in Hi.
  - destruct j as [|j]; [lia|]. destruct i as [|i]; simpl in *.
    + injection Hi as ->. rewrite Forall_forall in Hall.
      apply Hall. by eapply list_elem_of_lookup_2.
    + apply (IH i j); [done|done|lia].
Qed.

Section SortFacts.
Context {A : Type} (rank : A -> Z).

Lemma sort_insert_Permutation (cmp : A -> A -> Z) x l :
  sort_insert cmp x l ≡ₚ x :: l.
Proof.
  induction l as [|y l IH]; simpl; [done|].
  destruct (cmp x y <=? 0)%Z; [done|].
  rewrite IH. apply Permutation_swap.
Qed.

Lemma array_sort_Permutation (cmp : A -> A -> Z) l : array_sort cmp l ≡ₚ l.
Proof.
  induction l as [|x l IH]; simpl; [done|].
  by rewrite sort_insert_Permutation, IH.
Qed.

Lemma sort_insert_sorted x l :
  StronglySorted (fun a b => rank b <= rank a)%Z l ->
  StronglySorted (fun a b => rank b <= rank a)%Z
    (sort_insert (descending rank) x l).
Proof.
  induction 1 as [|y l Hs IH Hall]; simpl.
  - repeat constructor.
  - unfold descending at 1. destruct (Z.leb_spec (rank y - rank x) 0).
    + constructor; [by constructor|].
      constructor; [lia|].
      eapply Forall_impl; [exact Hall|]. simpl. intros; lia.
    + constructor; [exact IH|].
      rewrite sort_insert_Permutation. constructor; [lia|exact Hall].
Qed.

Lemma array_sort_sorted l :
  StronglySorted (fun a b => rank b <= rank a)%Z (array_sort (descending rank) l).
Proof.
  induction l as [|x l IH]; simpl; [constructor|].
  by apply sort_insert_sorted.
Qed.
End SortFacts.

(** ** Aggregation: what the loop computes for each key *)

Section Aggregation.
Variable scanSitCategory : option string.
Local Abbreviation sc := scanSitCategory.

Lemma group_of_snoc ms c :
  group_of sc (ms ++ [c]) =
  Some match group_of sc ms with
       | Some g => merge_into sc g c
       | None => new_group sc c
       end.
Proof.
  destruct ms as [|c0 ms]; simpl; [done|].
  by rewrite fold_left_app.
Qed.

Lemma grouped_map_snoc cs c :
  grouped_map sc (cs ++ [c]) = group_step sc (grouped_map sc cs) c.
Proof. unfold grouped_map. by rewrite fold_left_app. Qed.

Lemma members_snoc k cs c :
  members k (cs ++ [c]) =
  members k cs ++ (if decide (candidate_key c = k) then [c] else []).
Proof. unfold members. by rewrite filter_app, filter_singleton. Qed.

Lemma grouped_map_get cs k :
  JsMap.get k (grouped_map sc cs) = group_of sc (members k cs).
Proof.
  induction cs as [|c cs IH] using rev_ind; [done|].
  rewrite grouped_map_snoc, members_snoc. unfold group_step.
  destruct (decide (candidate_key c = k)) as [<-|Hne].
  - rewrite group_of_snoc, <- IH.
    destruct (JsMap.get _ _); by rewrite get_set_eq.
  - rewrite app_nil_r, <- IH.
    destruct (JsMap.get (candidate_key c) _); by rewrite get_set_ne.
Qed.

Lemma grouped_map_NoDup cs : NoDup (JsMap.keys (grouped_map sc cs)).
Proof.
  induction cs as [|c cs IH] using rev_ind; [constructor|].
  rewrite grouped_map_snoc. unfold group_step.
  destruct (JsMap.get _ _); by apply NoDup_keys_set.
Qed.

Lemma merge_fold_key ms g :
  Group.key (fold_left (merge_into sc) ms g) = Group.key g.
Proof.
  revert g. induction ms as [|c ms IH]; intros g; simpl; [done|].
  by rewrite IH.
Qed.

Lemma groupedCandidates_elem cs g :
  g ∈ groupedCandidates sc cs <->
  exists k, JsMap.get k (grouped_map sc cs) = Some g.
Proof.
  unfold groupedCandidates. rewrite array_sort_Permutation.
  apply elem_of_values, grouped_map_NoDup.
Qed.

(** Every row of the result is the fold of [merge_into] over the members
    of its key, started from the first of them. *)
Lemma group_members cs g :
  g ∈ groupedCandidates sc cs ->
  exists c ms,
    members (Group.key g) cs = c :: ms /\
    g = fold_left (merge_into sc) ms (new_group sc c).
Proof.
  intros [k Hk]%groupedCandidates_elem.
  rewrite grouped_map_get in Hk.
  destruct (members k cs) as [|c ms] eqn:Hms; simpl in Hk; [done|].
  injection Hk as <-. exists c, ms. split; [|done].
  rewrite merge_fold_key. simpl.
  assert (Hc : c ∈ members k cs) by (rewrite Hms; apply elem_of_cons; by left).
  apply list_elem_of_filter in Hc as [-> _]. exact Hms.
Qed.

(** Conversely every key of the pool has its row. *)
Lemma group_exists cs c :
  c ∈ cs ->
  exists g, g ∈ groupedCandidates sc cs /\ Group.key g = candidate_key c.
Proof.
  intros Hc.
  assert (Hm : c ∈ members (candidate_key c) cs)
    by (by apply list_elem_of_filter).
  destruct (members (candidate_key c) cs) as [|c0 ms] eqn:Hms.
  { by apply elem_of_nil in Hm. }
  exists (fold_left (merge_into sc) ms (new_group sc c0)). split.
  - apply groupedCandidates_elem. exists (candidate_key c).
    by rewrite grouped_map_get, Hms.
  - rewrite merge_fold_key. simpl.
    assert (H0 : c0 ∈ members (candidate_key c) cs)
      by (rewrite Hms; apply elem_of_cons; by left).
    by apply list_elem_of_filter in H0 as [-> _].
Qed.

(** At most one row per key. *)
Lemma group_unique cs g1 g2 :
  g1 ∈ groupedCandidates sc cs -> g2 ∈ groupedCandidates sc cs ->
  Group.key g1 = Group.key g2 -> g1 = g2.
Proof.
  intros (c1 & ms1 & H1 & ->)%group_members (c2 & ms2 & H2 & ->)%group_members.
  rewrite !merge_fold_key. simpl. intros Hk.
  rewrite !merge_fold_key in H1, H2. simpl in H1, H2.
  rewrite Hk, H2 in H1. by injection H1 as -> ->.
Qed.

Lemma merge_fold_frequency ms g :
  Group.frequency (fold_left (merge_into sc) ms g) =
  (Group.frequency g + sum_frequency ms)%Z.
Proof.
  revert g. induction ms as [|c ms IH]; intros g; simpl; [lia|].
  rewrite IH. simpl. lia.
Qed.

Lemma merge_effective_score g c :
  effective_score (Group.score (merge_into sc g c)) =
  Z.max (effective_score (Group.score g)) (effective_score (score c)).
Proof.
  unfold effective_score. simpl.
  destruct (Z.gtb_spec (nullish_or (score c) (-1))
              (nullish_or (Group.score g) (-1))); lia.
Qed.

(** The row's score, read with a missing score as [-1], bounds every
    member's score from above. *)
Lemma merge_fold_score_upper ms g :
  (effective_score (Group.score g)
     <= effective_score (Group.score (fold_left (merge_into sc) ms g)))%Z /\
  forall c, c ∈ ms ->
    (effective_score (score c)
       <= effective_score (Group.score (fold_left (merge_into sc) ms g)))%Z.
Proof.
  revert g. induction ms as [|c ms IH]; intros g; simpl.
  - split; [lia|]. intros c Hc. by apply elem_of_nil in Hc.
  - destruct (IH (merge_into sc g c)) as [H1 H2].
    rewrite merge_effective_score in H1. split; [lia|].
    intros c' [->|Hc']%elem_of_cons; [lia|auto].
Qed.

(** ... and is the score of one of them. *)
Lemma merge_fold_score_attained ms g :
  Group.score (fold_left (merge_into sc) ms g) = Group.score g \/
  exists c, c ∈ ms /\
    Group.score (fold_left (merge_into sc) ms g) = score c.
Proof.
  revert g. induction ms as [|c ms IH]; intros g; simpl; [by left|].
  destruct (IH (merge_into sc g c)) as [H|(c' & Hc' & H)].
  - rewrite H. simpl. destruct (_ >? _)%Z; [right|by left].
    exists c. split; [apply elem_of_cons; by left|done].
  - right. exists c'. split; [apply elem_of_cons; by right|done].
Qed.
End Aggregation.

(** Two candidates of one key make one row. *)
Lemma groupedCandidates_same_key sc c1 c2 :
  candidate_key c1 = candidate_key c2 ->
  groupedCandidates sc [c1; c2] = [merge_into sc (new_group sc c1) c2].
Proof.
  intros Hk. unfold groupedCandidates, grouped_map, group_step. simpl.
  by rewrite <- Hk, String.eqb_refl.
Qed.

(** ** The category label *)

Lemma merge_fold_sitCategory sc ms g :
  Group.sitCategory (fold_left (merge_into sc) ms g) =
  if truthy (Group.sitCategory g) then Group.sitCategory g
  else
    match List.find truthy (List.map (candidate_sitCategory sc) ms) with
    | Some l => l
    | None => Group.sitCategory g
    end.
Proof.
  revert g. induction ms as [|c ms IH]; intros g; simpl.
  - by destruct (truthy _).
  - rewrite IH. simpl.
    destruct (truthy (Group.sitCategory g)) eqn:Hg; simpl.
    + by rewrite Hg.
    + destruct (truthy (candidate_sitCategory sc c)) eqn:Hc; simpl.
      * by rewrite Hc.
      * by rewrite Hg.
Qed.

Lemma aggregated_label_no_own_label sc ms :
  ms <> [] -> Forall (fun c => meta sit_category c = None) ms ->
  aggregated_label sc ms = sc.
Proof.
  intros Hne Hall. unfold aggregated_label.
  assert (Hl : List.map (candidate_sitCategory sc) ms = List.map (fun _ => sc) ms).
  { induction Hall as [|c ms Hc _ IH]; simpl; [done|].
    unfold candidate_sitCategory at 1. rewrite Hc. simpl.
    destruct ms; [done|]. by rewrite IH. }
  rewrite Hl. destruct ms as [|c ms]; [done|]. simpl.
  destruct (truthy sc) eqn:Hsc; [done|].
  clear. induction ms as [|c' ms IH]; simpl; [done|].
  destruct (truthy sc); [done|]. exact IH.
Qed.

(** ** Monotonicity of the occurrence count *)

Lemma sum_frequency_app ms1 ms2 :
  sum_frequency (ms1 ++ ms2) = (sum_frequency ms1 + sum_frequency ms2)%Z.
Proof. induction ms1 as [|c ms1 IH]; simpl; [done|]. rewrite IH. lia. Qed.

Lemma sum_frequency_Permutation ms1 ms2 :
  ms1 ≡ₚ ms2 -> sum_frequency ms1 = sum_frequency ms2.
Proof. induction 1; simpl; lia. Qed.

Lemma sum_frequency_nonneg ms :
  Forall (fun c => 0 <= frequency c)%Z ms -> (0 <= sum_frequency ms)%Z.
Proof. induction 1; simpl; lia. Qed.

Lemma sum_frequency_submseteq ms1 ms2 :
  ms1 ⊆+ ms2 -> Forall (fun c => 0 <= frequency c)%Z ms2 ->
  (sum_frequency ms1 <= sum_frequency ms2)%Z.
Proof.
  intros [k Hk]%submseteq_Permutation Hall.
  rewrite (sum_frequency_Permutation _ _ Hk), sum_frequency_app.
  rewrite Hk in Hall. apply Forall_app in Hall as [_ Hk'].
  apply sum_frequency_nonneg in Hk'. lia.
Qed.

Lemma members_submseteq k A B : A ⊆+ B -> members k A ⊆+ members k B.
Proof.
  intros [rest Hk]%submseteq_Permutation. unfold members.
  rewrite Hk, filter_app. by apply submseteq_inserts_r.
Qed.

(** ** The scenario of the two SSN findings *)



(** ** The order of the result *)

(** C2, as stated, fails: a group without a score is placed before a group
    whose score is -5. *)
Lemma missing_score_before_negative_score :
  exists g1 g2,
    groupedCandidates None
      [bare_candidate "A" "x" None; bare_candidate "B" "y" (Some (-5)%Z)]
      = [g1; g2] /\
    Group.score g1 = None /\ Group.score g2 = Some (-5)%Z /\
    ~ spec_sorted [g1; g2].
Proof.
  do 2 eexists. split; [vm_compute; reflexivity|].
  split; [done|]. split; [done|].
  intros Hs. inversion Hs as [|? ? _ Hall]; subst.
  inversion Hall as [|? ? Hlow _]; subst. exact Hlow.
Qed.

(** C2, amended. The result is in descending order of score with a missing
    score counted as -1: whenever a row comes before another, its score so
    read is not lower. So a row without a score comes after every row whose
    score is greater than -1. *)
Theorem groupedCandidates_sorted_by_effective_score :
  forall scanSitCategory candidates,
    StronglySorted
      (fun a b =>
         effective_score (Group.score b) <= effective_score (Group.score a))%Z
      (groupedCandidates scanSitCategory candidates) /\
    (forall i j gi gj s,
       groupedCandidates scanSitCategory candidates !! i = Some gi ->
       groupedCandidates scanSitCategory candidates !! j = Some gj ->
       Group.score gi = None -> Group.score gj = Some s -> (-1 < s)%Z ->
       (j < i)%nat).
Proof.
  intros sc cs.
  assert (Hs : StronglySorted
      (fun a b =>
         effective_score (Group.score b) <= effective_score (Group.score a))%Z
      (groupedCandidates sc cs)).
  { apply (array_sort_sorted (fun g => effective_score (Group.score g))). }
  split; [exact Hs|].
  intros i j gi gj s Hi Hj Hnone Hsome Hlt.
  destruct (decide (j < i)%nat) as [|Hge]; [done|exfalso].
  assert (i = j \/ (i < j)%nat) as [->|Hij] by lia.
  { rewrite Hi in Hj. injection Hj as ->. congruence. }
  pose proof (StronglySorted_lookup _ _ Hs i j gi gj Hi Hj Hij) as Hle.
  simpl in Hle.
  rewrite Hnone, Hsome in Hle. simpl in Hle. lia.
Qed.

Lemma groupedCandidates_sorted_witness :
  StronglySorted
    (fun a b =>
       effective_score (Group.score b) <= effective_score (Group.score a))%Z
    (groupedCandidates None
       [bare_candidate "A" "x" None; bare_candidate "B" "y" (Some 3%Z)]) /\
  (0 < 1)%nat.
Proof.
  pose proof (groupedCandidates_sorted_by_effective_score None
    [bare_candidate "A" "x" None; bare_candidate "B" "y" (Some 3%Z)])
    as [Hs Hpos].
  split; [exact Hs|].
  apply (Hpos 1%nat 0%nat
           (new_group None (bare_candidate "A" "x" None))
           (new_group None (bare_candidate "B" "y" (Some 3%Z))) 3%Z);
    [reflexivity|reflexivity|reflexivity|reflexivity|lia].
Defined.

(** ** The category label of a group *)

(** C3, as stated, fails: with the scan-level default "Legal", a group whose
    first member has no label and whose second member is labelled
    "Healthcare" is labelled "Legal", while the first label carried by a
    member is "Healthcare". *)
Lemma scan_default_shadows_member_label :
  exists g,
    groupedCandidates (Some "Legal")
      [labelled_candidate "A" "x" None;
       labelled_candidate "A" "x" (Some "Healthcare")] = [g] /\
    Group.sitCategory g = Some "Legal" /\
    spec_label (Some "Legal")
      (members (Group.key g)
         [labelled_candidate "A" "x" None;
          labelled_candidate "A" "x" (Some "Healthcare")])
      = Some "Healthcare".
Proof. eexists. split; [vm_compute; reflexivity|]. split; reflexivity. Qed.

(** C3, amended. The aggregated label of a group is the first non-empty
    label in member order, where a member without a label of its own counts
    with the scan-level default (and when no such label is non-empty, the
    first member's). In particular it is the scan-level default when no
    member of the group carries its own label. *)
Theorem category_label_of_group :
  forall scanSitCategory candidates g,
    g ∈ groupedCandidates scanSitCategory candidates ->
    Group.sitCategory g =
      aggregated_label scanSitCategory (members (Group.key g) candidates) /\
    (Forall (fun c => meta sit_category c = None)
       (members (Group.key g) candidates) ->
     Group.sitCategory g = scanSitCategory).
Proof.
  intros sc cs g Hg.
  assert (Hlabel : Group.sitCategory g =
                   aggregated_label sc (members (Group.key g) cs)).
  { destruct (group_members sc cs g Hg) as (c & ms & Hms & Heq).
    rewrite Hms. rewrite Heq at 1. rewrite merge_fold_sitCategory.
    unfold aggregated_label. simpl.
    destruct (truthy (candidate_sitCategory sc c)); [done|].
    by destruct (List.find _ _). }
  split; [exact Hlabel|].
  intros Hall. rewrite Hlabel. apply aggregated_label_no_own_label; [|done].
  destruct (group_members sc cs g Hg) as (c & ms & Hms & _). by rewrite Hms.
Qed.

Lemma category_label_witness :
  let pool := [labelled_candidate "A" "x" None;
               labelled_candidate "A" "x" (Some "Healthcare")] in
  let g := merge_into (Some "Legal")
             (new_group (Some "Legal") (labelled_candidate "A" "x" None))
             (labelled_candidate "A" "x" (Some "Healthcare")) in
  g ∈ groupedCandidates (Some "Legal") pool /\
  Group.sitCategory g = aggregated_label (Some "Legal") (members (Group.key g) pool).
Proof.
  intros pool g.
  assert (Hg : g ∈ groupedCandidates (Some "Legal") pool)
    by (vm_compute; constructor).
  split; [exact Hg|].
  exact (proj1 (category_label_of_group (Some "Legal") pool g Hg)).
Defined.

(** ** Aggregating a larger pool *)

(** C4, as stated, fails in the specification's order of scores: adding a
    candidate without a score to a group whose only score is -5 leaves the
    group without a score. *)
Lemma superset_loses_negative_score :
  exists gA gB,
    [bare_candidate "A" "x" (Some (-5)%Z)]
      ⊆+ [bare_candidate "A" "x" (Some (-5)%Z); bare_candidate "A" "x" None] /\
    groupedCandidates None [bare_candidate "A" "x" (Some (-5)%Z)] = [gA] /\
    groupedCandidates None
      [bare_candidate "A" "x" (Some (-5)%Z); bare_candidate "A" "x" None]
      = [gB] /\
    Group.key gA = Group.key gB /\
    Group.score gA = Some (-5)%Z /\ Group.score gB = None /\
    ~ spec_not_lower (Group.score gB) (Group.score gA).
Proof.
  do 2 eexists. split; [constructor; apply submseteq_nil_l|].
  split; [vm_compute; reflexivity|].
  split; [vm_compute; reflexivity|].
  split; [reflexivity|]. split; [reflexivity|]. split; [reflexivity|].
  simpl. tauto.
Qed.

Lemma double_fold_exact ms acc :
  (0 <= acc)%Z -> Forall (fun c => 0 <= frequency c)%Z ms ->
  (acc + sum_frequency ms <= MAX_SAFE_INTEGER)%Z ->
  fold_left (fun acc later => double_add acc (frequency later)) ms acc
  = (acc + sum_frequency ms)%Z.
Proof.
  revert acc. induction ms as [|c ms IH]; intros acc Hacc Hall Hsum; simpl.
  - lia.
  - apply Forall_cons in Hall as [Hc Hall]. simpl in Hsum.
    pose proof (sum_frequency_nonneg ms Hall) as Hms.
    assert (Hadd : double_add acc (frequency c) = (acc + frequency c)%Z).
    { unfold double_add, round_to_double, MAX_SAFE_INTEGER in *.
      destruct (Z.leb_spec (Z.abs (acc + frequency c)) (2 ^ 53)); [done|].
      lia. }
    rewrite Hadd, IH; [lia|lia|done|lia].
Qed.

(** Within the safe integers the count added up in doubles is the exact
    sum. *)
Lemma double_frequency_exact ms :
  Forall (fun c => 0 <= frequency c)%Z ms ->
  (sum_frequency ms <= MAX_SAFE_INTEGER)%Z ->
  double_frequency ms = sum_frequency ms.
Proof.
  destruct ms as [|c ms]; [done|]. intros Hall Hsum.
  apply Forall_cons in Hall as [Hc Hall]. simpl in *.
  by apply double_fold_exact.
Qed.

(** Beyond the safe integers the additions round: the counts 1, 1 and 2^53
    add up to 2^53 + 2 in this order and to 2^53 in the reverse order. *)
Lemma double_frequency_rounds_beyond_safe_integers :
  double_frequency
    [counted_candidate 1; counted_candidate 1; counted_candidate (2 ^ 53)]
    = 9007199254740994%Z /\
  double_frequency
    [counted_candidate (2 ^ 53); counted_candidate 1; counted_candidate 1]
    = 9007199254740992%Z.
Proof. split; vm_compute; reflexivity. Qed.

(** C4, amended. When pool [B] contains every candidate of pool [A] (as
    often as [A] does), and the occurrence counts of [B] are not negative
    and add up to a safe integer (at most 2^53 - 1, so that the code's
    additions of counts are exact), then for every key with a row in both
    results the row's score in the result of [B], with a missing score
    counted as -1, is not lower than in the result of [A], and its
    occurrence count is not lower either; both counts are the ones the
    additions in doubles give. *)
Theorem superset_never_decreases :
  forall scanSitCategory A B gA gB,
    A ⊆+ B ->
    safe_counts B ->
    gA ∈ groupedCandidates scanSitCategory A ->
    gB ∈ groupedCandidates scanSitCategory B ->
    Group.key gA = Group.key gB ->
    (effective_score (Group.score gA) <= effective_score (Group.score gB))%Z /\
    (Group.frequency gA <= Group.frequency gB)%Z /\
    Group.frequency gA = double_frequency (members (Group.key gA) A) /\
    Group.frequency gB = double_frequency (members (Group.key gB) B).
Proof.
  intros sc A B gA gB Hsub [Hfreq Hsafe] HA HB Hkey.
  destruct (group_members sc A gA HA) as (cA & msA & HmA & HgA).
  destruct (group_members sc B gB HB) as (cB & msB & HmB & HgB).
  pose proof (members_submseteq (Group.key gA) A B Hsub) as Hms.
  rewrite Hkey in Hms at 2.
  assert (HallB : Forall (fun c => 0 <= frequency c)%Z
                    (members (Group.key gB) B)).
  { apply Forall_forall. intros c [_ Hc]%list_elem_of_filter.
    rewrite Forall_forall in Hfreq. by apply Hfreq. }
  assert (HallA : Forall (fun c => 0 <= frequency c)%Z
                    (members (Group.key gA) A)).
  { apply Forall_forall. intros c Hc. rewrite Forall_forall in HallB.
    apply HallB. by eapply elem_of_submseteq. }
  assert (HsumB : (sum_frequency (members (Group.key gB) B)
                   <= MAX_SAFE_INTEGER)%Z).
  { etrans; [|exact Hsafe]. apply sum_frequency_submseteq; [|done].
    unfold members. apply sublist_submseteq, sublist_filter. }
  assert (HsumAB : (sum_frequency (members (Group.key gA) A)
                    <= sum_frequency (members (Group.key gB) B))%Z)
    by (by apply sum_frequency_submseteq).
  assert (HfA : Group.frequency gA
                = sum_frequency (members (Group.key gA) A))
    by (rewrite HmA, HgA, merge_fold_frequency; reflexivity).
  assert (HfB : Group.frequency gB
                = sum_frequency (members (Group.key gB) B))
    by (rewrite HmB, HgB, merge_fold_frequency; reflexivity).
  rewrite HmA, HmB in Hms.
  split_and!.
  - assert (Hupper : forall c, c ∈ cB :: msB ->
              (effective_score (score c)
                 <= effective_score (Group.score gB))%Z).
    { destruct (merge_fold_score_upper sc msB (new_group sc cB)) as [H1 H2].
      rewrite <- HgB in H1, H2.
      intros c [->|Hc]%elem_of_cons; [exact H1|by apply H2]. }
    assert (Hatt : exists c, c ∈ cA :: msA /\ Group.score gA = score c).
    { destruct (merge_fold_score_attained sc msA (new_group sc cA))
        as [H|(c & Hc & H)]; rewrite <- HgA in H.
      - exists cA. split; [apply elem_of_cons; by left|done].
      - exists c. split; [apply elem_of_cons; by right|done]. }
    destruct Hatt as (c & Hc & ->). apply Hupper.
    by eapply elem_of_submseteq.
  - by rewrite HfA, HfB.
  - rewrite double_frequency_exact; [done|done|lia].
  - by rewrite double_frequency_exact.
Qed.

Lemma superset_never_decreases_witness :
  let A := [ssn_candidate "a.txt" 80 true "c-1" 2 None None] in
  let B := [ssn_candidate "a.txt" 80 true "c-1" 2 None None;
            ssn_candidate "b.txt" 90 false "c-2" 3 None None] in
  let gA := new_group None (ssn_candidate "a.txt" 80 true "c-1" 2 None None) in
  let gB := merge_into None gA
              (ssn_candidate "b.txt" 90 false "c-2" 3 None None) in
  (effective_score (Group.score gA) <= effective_score (Group.score gB))%Z /\
  (Group.frequency gA <= Group.frequency gB)%Z /\
  Group.frequency gA = double_frequency (members (Group.key gA) A) /\
  Group.frequency gB = double_frequency (members (Group.key gB) B).
Proof.
  intros A B gA gB.
  apply (superset_never_decreases None A B gA gB).
  - constructor. apply submseteq_nil_l.
  - split; [repeat constructor; simpl; lia|vm_compute; discriminate].
  - vm_compute. constructor.
  - vm_compute. constructor.
  - reflexivity.
Defined.

(** ** The OCR column *)

(** C8. When the active scan (the selected scan of the list or, failing
    that, the loaded scan details) is a sentence-transformer scan, every
    row's OCR cell reads "N/A", whatever OCR flags the raw candidates carry;
    for any other scan the cell is one of "-", "Yes", "No" and "Mixed",
    computed from the group's OCR states. *)
Theorem ocr_column_not_applicable_for_sentence_transformer :
  forall scans selectedScanId scanDetails scanSitCategory candidates,
    let active :=
      activeScanSummary (selectedScan scans selectedScanId) scanDetails in
    (ActiveScan.scan_type <$> active = Some "sentence_transformer" ->
     ocr_column active scanSitCategory candidates =
       List.map (fun _ => "N/A")
         (groupedCandidates scanSitCategory candidates)) /\
    (ActiveScan.scan_type <$> active <> Some "sentence_transformer" ->
     Forall (fun cell => cell ∈ ["-"; "Yes"; "No"; "Mixed"])
       (ocr_column active scanSitCategory candidates)).
Proof.
  intros scans selectedScanId scanDetails sc cs active.
  clearbody active. unfold ocr_column. split.
  - intros Hty. destruct active as [a|]; [|done].
    injection Hty as Hty. unfold ocrColumnNotApplicable. rewrite Hty.
    reflexivity.
  - intros Hty.
    assert (Hna : ocrColumnNotApplicable active = false).
    { destruct active as [a|]; [|done]. simpl.
      apply String.eqb_neq. intros Heq. apply Hty. simpl. by rewrite Heq. }
    rewrite Hna. apply Forall_forall.
    intros cell (g & -> & _)%list_elem_of_fmap_1. unfold ocr_cell.
    destruct (Group.ocrStates g) as [|[] [|? ?]];
      repeat first [apply list_elem_of_here | apply list_elem_of_further].
Qed.

Lemma ocr_column_not_applicable_witness :
  ocr_column
    (activeScanSummary (selectedScan [bridged_scan] "scan-1") None)
    None
    [ssn_candidate "a.txt" 80 true "c-1" 2 None None;
     ssn_candidate "b.txt" 90 false "c-2" 3 None None]
  = ["N/A"].
Proof.
  exact (proj1 (ocr_column_not_applicable_for_sentence_transformer
    [bridged_scan] "scan-1" None None
    [ssn_candidate "a.txt" 80 true "c-1" 2 None None;
     ssn_candidate "b.txt" 90 false "c-2" 3 None None]) eq_refl).
Defined.

(** ** The identity key of a file *)

Lemma app_cons a s t : String a s +:+ t = String a (s +:+ t).
Proof. reflexivity. Qed.

Lemma has_colon_app_colon s t : has_colon (s +:+ String ":" t) = true.
Proof.
  induction s as [|a s IH]; [done|].
  rewrite app_cons. simpl. rewrite IH. apply orb_true_r.
Qed.

(** The text after the last colon determines the split. *)
Lemma colon_split s1 s2 t1 t2 :
  has_colon t1 = false -> has_colon t2 = false ->
  s1 +:+ String ":" t1 = s2 +:+ String ":" t2 -> s1 = s2 /\ t1 = t2.
Proof.
  intros H1 H2. revert s2.
  induction s1 as [|a s1 IH]; intros [|b s2] Heq.
  - by injection Heq.
  - change (String ":" t1 = String b (s2 +:+ String ":" t2)) in Heq.
    injection Heq as _ Heq.
    rewrite Heq, has_colon_app_colon in H1. done.
  - change (String a (s1 +:+ String ":" t1) = String ":" t2) in Heq.
    injection Heq as _ Heq.
    rewrite <- Heq, has_colon_app_colon in H2. done.
  - rewrite !app_cons in Heq. injection Heq as -> Heq.
    destruct (IH _ Heq) as [-> ->]. done.
Qed.

Lemma pretty_N_char_no_colon x : Ascii.eqb (pretty_N_char x) ":" = false.
Proof. unfold pretty_N_char. by repeat case_match. Qed.

Lemma pretty_N_go_no_colon x s :
  has_colon s = false -> has_colon (pretty_N_go x s) = false.
Proof.
  revert s. induction (N.lt_wf_0 x) as [x _ IH]; intros s Hs.
  destruct (decide (x = 0)%N) as [->|Hx]; [by rewrite pretty_N_go_0|].
  rewrite pretty_N_go_step by lia. apply IH.
  - apply N.div_lt; lia.
  - simpl. by rewrite pretty_N_char_no_colon.
Qed.

Lemma pretty_N_no_colon (x : N) : has_colon (pretty x) = false.
Proof.
  unfold pretty, pretty_N. case_decide; [done|].
  by apply pretty_N_go_no_colon.
Qed.

Lemma pretty_Z_no_colon (x : Z) : has_colon (pretty x) = false.
Proof.
  destruct x as [|p|p]; [done|apply pretty_N_no_colon|].
  unfold pretty, pretty_Z. rewrite app_cons. simpl.
  apply pretty_N_no_colon.
Qed.

Lemma app_assoc_string (s t u : string) : (s +:+ t) +:+ u = s +:+ t +:+ u.
Proof. induction s as [|a s IH]; [done|]. rewrite !app_cons. by rewrite IH. Qed.

Lemma file_key_same_identity f g :
  file_key f = file_key g <-> same_identity f g.
Proof.
  unfold file_key, same_identity. split.
  - intros Heq.
    change (File.name f +:+ (":" +:+ pretty (File.size f))
              +:+ String ":" (pretty (File.lastModified f)) =
            File.name g +:+ (":" +:+ pretty (File.size g))
              +:+ String ":" (pretty (File.lastModified g))) in Heq.
    rewrite <- (app_assoc_string (File.name f) (":" +:+ pretty (File.size f))),
      <- (app_assoc_string (File.name g) (":" +:+ pretty (File.size g)))
      in Heq.
    apply colon_split in Heq as [Heq Hlm]; [|apply pretty_Z_no_colon..].
    change (File.name f +:+ String ":" (pretty (File.size f)) =
            File.name g +:+ String ":" (pretty (File.size g))) in Heq.
    apply colon_split in Heq as [Hn Hs]; [|apply pretty_Z_no_colon..].
    apply (inj pretty) in Hlm. apply (inj pretty) in Hs. done.
  - by intros (-> & -> & ->).
Qed.

(** ** Merging into the working file set *)

Lemma keyed_set g m :
  keyed_by_identity m -> keyed_by_identity (JsMap.set (file_key g) g m).
Proof.
  intros [Hnd Hall]. split; [by apply NoDup_keys_set|].
  clear Hnd. induction Hall as [|[k v] m Hkv Hm IH]; simpl.
  - by repeat constructor.
  - destruct (String.eqb_spec (file_key g) k) as [<-|Hne]; by constructor.
Qed.

Lemma keyed_fold_set gs m :
  keyed_by_identity m ->
  keyed_by_identity
    (fold_left (fun m file => JsMap.set (file_key file) file m) gs m).
Proof.
  revert m. induction gs as [|g gs IH]; intros m Hm; simpl; [done|].
  by apply IH, keyed_set.
Qed.

Lemma of_entries_fold fs m :
  fold_left (fun m kv => JsMap.set (fst kv) (snd kv) m) (file_entries fs) m =
  fold_left (fun m file => JsMap.set (file_key file) file m) fs m.
Proof. revert m. induction fs as [|f fs IH]; intros m; simpl; [done|apply IH]. Qed.

Lemma keys_file_entries fs : JsMap.keys (file_entries fs) = List.map file_key fs.
Proof. unfold JsMap.keys, file_entries. rewrite List.map_map. done. Qed.

Lemma values_file_entries fs : JsMap.values (file_entries fs) = fs.
Proof.
  unfold JsMap.values, file_entries. rewrite List.map_map. simpl.
  apply List.map_id.
Qed.

Lemma keyed_file_entries_values m :
  keyed_by_identity m -> file_entries (JsMap.values m) = m.
Proof.
  intros [_ Hall]. induction Hall as [|[k v] m Hkv _ IH]; simpl; [done|].
  simpl in Hkv. by rewrite IH, Hkv.
Qed.

Lemma keyed_file_entries fs :
  NoDup (List.map file_key fs) -> keyed_by_identity (file_entries fs).
Proof.
  intros Hnd. split; [by rewrite keys_file_entries|].
  apply Forall_forall. intros [k v] (f & [= -> ->] & _)%list_elem_of_fmap_1.
  done.
Qed.

(** Building the map from a set without repeated identities keeps it. *)
Lemma of_entries_file_entries fs :
  NoDup (List.map file_key fs) ->
  JsMap.of_entries (file_entries fs) = file_entries fs.
Proof.
  unfold JsMap.of_entries. rewrite of_entries_fold.
  induction fs as [|f fs IH] using rev_ind; [done|].
  rewrite List.map_app. simpl. intros Hnd.
  apply NoDup_app in Hnd as (Hfs & Hf & _).
  rewrite fold_left_app. simpl. rewrite (IH Hfs).
  rewrite set_fresh.
  - unfold file_entries. by rewrite List.map_app.
  - rewrite keys_file_entries. intros Hin. apply (Hf _ Hin).
    apply list_elem_of_singleton. done.
Qed.

Lemma mergeFiles_keyed prev incoming :
  incoming <> [] ->
  exists m, keyed_by_identity m /\ mergeFiles prev incoming = JsMap.values m.
Proof.
  intros Hne. destruct incoming as [|g gs]; [done|].
  eexists. split; [|reflexivity].
  apply (keyed_fold_set (g :: gs)).
  unfold JsMap.of_entries. rewrite of_entries_fold.
  apply keyed_fold_set. split; [constructor|constructor].
Qed.

Lemma keyed_values_NoDup m :
  keyed_by_identity m -> NoDup (List.map file_key (JsMap.values m)).
Proof.
  intros Hm. rewrite <- keys_file_entries.
  rewrite (keyed_file_entries_values m Hm). apply Hm.
Qed.

(** The working set never holds two files of one identity. *)
Lemma files_state_NoDup fs : files_state fs -> NoDup (List.map file_key fs).
Proof.
  induction 1 as [|prev incoming _ IH]; [constructor|].
  destruct incoming as [|g gs]; [exact IH|].
  destruct (mergeFiles_keyed prev (g :: gs)) as (m & Hm & ->); [done|].
  by apply keyed_values_NoDup.
Qed.

Lemma mergeFiles_NoDup_eq prev incoming :
  NoDup (List.map file_key prev) -> incoming <> [] ->
  mergeFiles prev incoming =
  JsMap.values
    (fold_left (fun m file => JsMap.set (file_key file) file m) incoming
       (file_entries prev)).
Proof.
  intros Hnd Hne. destruct incoming as [|g gs]; [done|].
  unfold mergeFiles. by rewrite of_entries_file_entries.
Qed.

Lemma mergeFiles_one_by_one prev incoming :
  files_state prev ->
  mergeFiles prev incoming =
  fold_left (fun acc file => mergeFiles acc [file]) incoming prev.
Proof.
  revert prev. induction incoming as [|g gs IH]; intros prev Hprev; [done|].
  cbn [fold_left]. rewrite <- IH by (by constructor).
  destruct gs as [|g' gs]; [done|].
  pose proof (files_state_NoDup prev Hprev) as Hnd.
  assert (Hstep : files_state (mergeFiles prev [g])) by (by constructor).
  rewrite (mergeFiles_NoDup_eq prev (g :: g' :: gs)) by done.
  rewrite (mergeFiles_NoDup_eq (mergeFiles prev [g]) (g' :: gs))
    by (by try apply files_state_NoDup).
  rewrite (mergeFiles_NoDup_eq prev [g]) by done.
  cbn [fold_left].
  rewrite keyed_file_entries_values; [done|].
  by apply keyed_set, keyed_file_entries.
Qed.

(** C5. In a working file set, merging one incoming file replaces the entry
    that has the same name, byte length and last-modified time, where it
    stands and without adding an entry; when no entry agrees with the
    incoming file on all three, nothing is replaced and the file is added at
    the end. Merging several files is merging them one by one. *)
Theorem mergeFiles_replaces_or_appends :
  forall prev g,
    files_state prev ->
    (forall l1 f l2,
       prev = l1 ++ f :: l2 -> same_identity f g ->
       mergeFiles prev [g] = l1 ++ g :: l2) /\
    ((forall f, f ∈ prev -> ~ same_identity f g) ->
     mergeFiles prev [g] = prev ++ [g]) /\
    (forall incoming,
       mergeFiles prev (g :: incoming) =
       mergeFiles (mergeFiles prev [g]) incoming).
Proof.
  intros prev g Hprev.
  pose proof (files_state_NoDup prev Hprev) as Hnd.
  split_and!.
  - intros l1 f l2 -> Hsame.
    apply file_key_same_identity in Hsame.
    rewrite mergeFiles_NoDup_eq by done. cbn [fold_left].
    unfold file_entries. rewrite List.map_app. simpl. rewrite Hsame.
    rewrite set_existing.
    + pose proof (values_file_entries l1) as E1.
      pose proof (values_file_entries l2) as E2.
      unfold JsMap.values, file_entries in *.
      rewrite List.map_app. simpl. by rewrite E1, E2.
    + rewrite List.map_app in Hnd. simpl in Hnd.
      apply NoDup_app in Hnd as (_ & Hl1 & _).
      fold (file_entries l1). rewrite keys_file_entries. intros Hin.
      apply (Hl1 _ Hin). rewrite <- Hsame. apply elem_of_cons. by left.
  - intros Hnone. rewrite mergeFiles_NoDup_eq by done. cbn [fold_left].
    rewrite set_fresh.
    + pose proof (values_file_entries prev) as E.
      unfold JsMap.values in *. rewrite List.map_app. simpl. by rewrite E.
    + rewrite keys_file_entries.
      intros (f & Hk & Hf)%list_elem_of_fmap_1.
      apply (Hnone f Hf). by apply file_key_same_identity.
  - intros incoming.
    rewrite (mergeFiles_one_by_one prev (g :: incoming)) by done.
    rewrite (mergeFiles_one_by_one (mergeFiles prev [g]) incoming)
      by (by constructor).
    reflexivity.
Qed.

Lemma mergeFiles_replaces_witness :
  mergeFiles (mergeFiles [] [a_txt; b_txt]) [a_txt_again]
    = [a_txt_again; b_txt].
Proof.
  apply (proj1 (mergeFiles_replaces_or_appends
                  (mergeFiles [] [a_txt; b_txt]) a_txt_again
                  (files_merged [] [a_txt; b_txt] files_initial))
           [] a_txt [b_txt]).
  - vm_compute. reflexivity.
  - repeat split; reflexivity.
Defined.

(** ** The source collector *)

Lemma collect_all_cons {A B} (f : A -> option (list B)) x xs :
  collect_all f (x :: xs) =
  match f x, collect_all f xs with
  | Some a, Some b => Some (a ++ b)
  | _, _ => None
  end.
Proof.
  unfold collect_all. simpl.
  destruct (f x); [|done]. by destruct (promise_all f xs).
Qed.

Lemma collect_all_app {A B} (f : A -> option (list B)) xs ys :
  collect_all f (xs ++ ys) =
  match collect_all f xs, collect_all f ys with
  | Some a, Some b => Some (a ++ b)
  | _, _ => None
  end.
Proof.
  induction xs as [|x xs IH]; simpl.
  - change (collect_all f []) with (Some (@nil B)).
    by destruct (collect_all f ys).
  - rewrite !collect_all_cons, IH.
    destruct (f x); [|done].
    destruct (collect_all f xs); [|done].
    destruct (collect_all f ys); [|done].
    by rewrite app_assoc.
Qed.

(** The directory case in the shape of the source: list the directory with
    [readAllDirectoryEntries], then collect from every child under the
    extended path and flatten. *)
Lemma collectFilesFromEntry_directory name reads parentPath :
  collectFilesFromEntry (DirectoryEntry name reads) parentPath =
  match readAllDirectoryEntries reads with
  | Some children =>
      collect_all
        (fun child => collectFilesFromEntry child (next_path parentPath name))
        children
  | None => None
  end.
Proof.
  cbn [collectFilesFromEntry].
  induction reads as [|[batch|] reads IH]; [done| |done].
  destruct batch as [|child batch]; [done|].
  rewrite IH. cbn [readAllDirectoryEntries].
  set (F := fun child => collectFilesFromEntry child (next_path parentPath name)).
  assert (Hvisit : forall children,
    (fix visit (children : list FileSystemEntry) : option (list File.t) :=
       match children with
       | [] => Some []
       | child :: children' =>
           match collectFilesFromEntry child (next_path parentPath name),
                 visit children' with
           | Some fs, Some rest => Some (fs ++ rest)
           | _, _ => None
           end
       end) children = collect_all F children).
  { induction children as [|c cs IHc]; [done|].
    rewrite collect_all_cons, <- IHc. reflexivity. }
  rewrite (Hvisit (child :: batch)).
  destruct (readAllDirectoryEntries reads) as [all|].
  - by rewrite collect_all_app.
  - by destruct (collect_all F (child :: batch)).
Qed.

(** A reader that hands out non-empty batches and then runs dry yields all
    of them: the loop goes on until the empty batch. *)
Lemma readAllDirectoryEntries_batches {E} (batches : list (list E)) :
  Forall (fun batch => batch <> []) batches ->
  readAllDirectoryEntries (List.map Some batches) = Some (concat batches).
Proof.
  induction 1 as [|batch batches Hne _ IH]; [done|].
  simpl. rewrite IH. by destruct batch.
Qed.

(** The loop stops at the first empty batch. *)
Lemma readAllDirectoryEntries_stops {E} (batches : list (list E)) rest :
  Forall (fun batch => batch <> []) batches ->
  readAllDirectoryEntries (List.map Some batches ++ Some [] :: rest)
    = Some (concat batches).
Proof.
  induction 1 as [|batch batches Hne _ IH]; [done|].
  simpl. rewrite IH. by destruct batch.
Qed.

Lemma collect_directory name batches parentPath :
  Forall (fun batch => batch <> []) batches ->
  collectFilesFromEntry (directory name batches) parentPath =
  collect_all
    (fun child => collectFilesFromEntry child (next_path parentPath name))
    (concat batches).
Proof.
  intros Hne. unfold directory.
  by rewrite collectFilesFromEntry_directory, readAllDirectoryEntries_batches.
Qed.

(** C6. A drop of the directory "root", holding "a.txt" and the directory
    "sub" that holds "b.txt", together with the flat file "c.txt": however
    the listings of the two directories are cut into non-empty batches, each
    directory is read until its reader answers with the empty batch, and the
    collector returns exactly the three payloads "root/a.txt",
    "root/sub/b.txt" and "c.txt", each once. *)
Theorem nested_drop_collects_three_payloads :
  forall (fa fb fc : File.t)
         (root_batches sub_batches : list (list FileSystemEntry))
         (dropped : list DataTransferItem) (flat : option (list File.t)),
    File.name fa = "a.txt" -> File.name fb = "b.txt" ->
    File.name fc = "c.txt" ->
    Forall (fun batch => batch <> []) sub_batches ->
    concat sub_batches = [FileEntry "b.txt" (Some fb)] ->
    Forall (fun batch => batch <> []) root_batches ->
    concat root_batches
      ≡ₚ [FileEntry "a.txt" (Some fa); directory "sub" sub_batches] ->
    dropped
      ≡ₚ [entry_item (directory "root" root_batches);
          entry_item (FileEntry "c.txt" (Some fc))] ->
    readAllDirectoryEntries (List.map Some root_batches)
      = Some (concat root_batches) /\
    readAllDirectoryEntries (List.map Some sub_batches)
      = Some (concat sub_batches) /\
    exists payloads,
      extractDroppedFiles {| items := Some dropped; files := flat |}
        = Some payloads /\
      payloads
        ≡ₚ [File.renamed "root/a.txt" fa; File.renamed "root/sub/b.txt" fb;
            fc] /\
      List.map File.name payloads
        ≡ₚ ["root/a.txt"; "root/sub/b.txt"; "c.txt"].
Proof.
  intros fa fb fc root_batches sub_batches dropped flat Ha Hb Hc
    Hsub Hsub_all Hroot Hroot_all Hdropped.
  split; [by apply readAllDirectoryEntries_batches|].
  split; [by apply readAllDirectoryEntries_batches|].
  assert (Hsubdir : collectFilesFromEntry (directory "sub" sub_batches) "root"
                    = Some [File.renamed "root/sub/b.txt" fb]).
  { rewrite collect_directory, Hsub_all by done.
    rewrite collect_all_cons. cbn. by rewrite Hb. }
  assert (Hrootdir : exists inner,
            collectFilesFromEntry (directory "root" root_batches) ""
              = Some inner /\
            inner ≡ₚ [File.renamed "root/a.txt" fa;
                      File.renamed "root/sub/b.txt" fb]).
  { rewrite collect_directory by done.
    symmetry in Hroot_all.
    apply Permutation_length_2_inv in Hroot_all as [-> | ->];
      rewrite !collect_all_cons; change (next_path "" "root") with "root";
      rewrite Hsubdir; cbn; rewrite Ha; eexists; (split; [reflexivity|]).
    - done.
    - apply Permutation_swap. }
  destruct Hrootdir as (inner & Hinner & Hperm).
  assert (Hnames : List.map File.name
            [File.renamed "root/a.txt" fa; File.renamed "root/sub/b.txt" fb; fc]
            = ["root/a.txt"; "root/sub/b.txt"; "c.txt"])
    by (simpl; by rewrite Hc).
  symmetry in Hdropped.
  apply Permutation_length_2_inv in Hdropped as [-> | ->];
    unfold extractDroppedFiles, dropped_entries; cbn [items nullish_or omap
      list_omap entry_item webkitGetAsEntry];
    rewrite !collect_all_cons, Hinner; cbn.
  - exists (inner ++ [fc]). split.
    + by destruct inner.
    + assert (Hp : inner ++ [fc] ≡ₚ
        [File.renamed "root/a.txt" fa; File.renamed "root/sub/b.txt" fb; fc]).
      { rewrite Hperm. reflexivity. }
      split; [exact Hp|]. by rewrite Hp, Hnames.
  - exists (fc :: inner). split; [by rewrite app_nil_r|].
    assert (Hp : fc :: inner ≡ₚ
        [File.renamed "root/a.txt" fa; File.renamed "root/sub/b.txt" fb; fc]).
    { rewrite Hperm. exact (Permutation_cons_append _ fc). }
    split; [exact Hp|]. by rewrite Hp, Hnames.
Qed.

Lemma nested_drop_witness :
  exists payloads,
    extractDroppedFiles
      {| items :=
           Some [entry_item
                   (directory "root"
                      [[FileEntry "a.txt" (Some a_txt)];
                       [directory "sub" [[FileEntry "b.txt" (Some b_txt)]]]]);
                 entry_item (FileEntry "c.txt" (Some c_txt))];
         files := Some [c_txt] |}
      = Some payloads /\
    payloads
      ≡ₚ [File.renamed "root/a.txt" a_txt; File.renamed "root/sub/b.txt" b_txt;
          c_txt] /\
    List.map File.name payloads ≡ₚ ["root/a.txt"; "root/sub/b.txt"; "c.txt"].
Proof.
  apply (nested_drop_collects_three_payloads a_txt b_txt c_txt
           [[FileEntry "a.txt" (Some a_txt)];
            [directory "sub" [[FileEntry "b.txt" (Some b_txt)]]]]
           [[FileEntry "b.txt" (Some b_txt)]]).
  - reflexivity.
  - reflexivity.
  - reflexivity.
  - repeat constructor; discriminate.
  - reflexivity.
  - repeat constructor; discriminate.
  - reflexivity.
  - reflexivity.
Defined.

(** C10. When the drop exposes entries but their traversal yields no file
    at all (only empty directories, say), the collector returns the flat
    file list of the drop, exactly as it does for a drop that exposes no
    entries. *)
Theorem empty_traversal_falls_back_to_flat_files :
  forall dataTransfer,
    dropped_entries dataTransfer <> [] ->
    collect_all (fun entry => collectFilesFromEntry entry "")
      (dropped_entries dataTransfer) = Some [] ->
    extractDroppedFiles dataTransfer = Some (flat_files dataTransfer) /\
    extractDroppedFiles dataTransfer =
      extractDroppedFiles {| items := None; files := files dataTransfer |}.
Proof.
  intros dt Hentries Hnone.
  assert (H : extractDroppedFiles dt = Some (flat_files dt)).
  { unfold extractDroppedFiles.
    destruct (dropped_entries dt) as [|e es]; [done|]. by rewrite Hnone. }
  split; [exact H|]. rewrite H. reflexivity.
Qed.

Lemma empty_traversal_witness :
  extractDroppedFiles
    {| items := Some [entry_item (directory "empty" [])];
       files := Some [c_txt] |}
  = Some [c_txt].
Proof.
  apply (empty_traversal_falls_back_to_flat_files
           {| items := Some [entry_item (directory "empty" [])];
              files := Some [c_txt] |}).
  - vm_compute. discriminate.
  - vm_compute. reflexivity.
Defined.

(** ** Admission *)

(** C7. A submission without files is rejected with an error and sends no
    scan-creation request; so is a sentence-transformer submission that has
    files but no access token, or no user principal name. *)
Theorem submission_without_files_or_credentials_is_rejected :
  forall now st,
    (Form.files st = [] ->
     exists error,
       submitScan now st = Rejected error /\
       scan_requests (submitScan now st) = []) /\
    (Form.files st <> [] ->
     Form.scanType st = sentence_transformer ->
     truthy (Form.exchangeToken st) = false \/
       trim (Form.userPrincipalName st) = "" ->
     exists error,
       submitScan now st = Rejected error /\
       scan_requests (submitScan now st) = []).
Proof.
  intros now st. unfold submitScan. split.
  - intros ->. eexists. split; reflexivity.
  - intros Hfiles Hty Hcred. destruct (Form.files st) as [|first rest]; [done|].
    rewrite Hty. simpl.
    destruct (truthy_string (trim (Form.userPrincipalName st))) eqn:Hupn; simpl.
    + destruct Hcred as [Htok|Hempty].
      * rewrite Htok. simpl. eexists. split; reflexivity.
      * rewrite Hempty in Hupn. discriminate.
    + eexists. split; reflexivity.
Qed.

Lemma submission_rejected_witness :
  (exists error,
     submitScan noon (bridged_form (Some "token") []) = Rejected error /\
     scan_requests (submitScan noon (bridged_form (Some "token") [])) = []) /\
  (exists error,
     submitScan noon (bridged_form None [c_txt]) = Rejected error /\
     scan_requests (submitScan noon (bridged_form None [c_txt])) = []).
Proof.
  split.
  - apply (proj1 (submission_without_files_or_credentials_is_rejected
                    noon (bridged_form (Some "token") []))).
    reflexivity.
  - apply (proj2 (submission_without_files_or_credentials_is_rejected
                    noon (bridged_form None [c_txt]))).
    + discriminate.
    + reflexivity.
    + left. reflexivity.
Defined.

(** ** Forced OCR *)

Lemma form_text_field field v :
  Forall (fun entry => fst entry = field) (form_text field v).
Proof.
  unfold form_text. destruct v as [s|]; [|constructor].
  destruct (truthy_string s); by repeat constructor.
Qed.

(** C9. For a sentence-transformer submission, whatever the state of the
    force-OCR box, the request made carries [forceOcr] false and its form has
    no [force_ocr] field; and choosing the sentence-transformer scan type
    switches the force-OCR option off. *)
Theorem force_ocr_never_sent_for_sentence_transformer :
  forall now st,
    Form.scanType st = sentence_transformer ->
    (forall files options,
       submitScan now st = ScanRequested files options ->
       CreateScanOptions.forceOcr options = false /\
       Forall (fun entry => fst entry <> "force_ocr")
         (createScan_form files options)) /\
    (forall st0,
       Form.scanType (select_scan_type sentence_transformer st0)
         = sentence_transformer /\
       Form.forceOcr (select_scan_type sentence_transformer st0) = false) /\
    Form.forceOcr (toggle_force_ocr true st) = false.
Proof.
  intros now st Hty. split_and!.
  - intros files options Hreq.
    assert (Hocr : CreateScanOptions.forceOcr options = false).
    { unfold submitScan in Hreq. rewrite Hty in Hreq.
      destruct (Form.files st); [done|].
      repeat (case_match; try done; []).
      by injection Hreq as _ <-. }
    split; [exact Hocr|].
    unfold createScan_form. rewrite Hocr. simpl form_flag.
    rewrite !Forall_app. split_and!;
      try (eapply Forall_impl; [apply form_text_field|];
           intros [? ?]; simpl; by intros ->).
    + apply Forall_forall. by intros ? (f & -> & _)%list_elem_of_fmap_1.
    + unfold form_flag. destruct (CreateScanOptions.preserveCase options);
        by repeat constructor.
    + constructor.
  - intros st0. unfold select_scan_type, forceOcr_effect. simpl.
    destruct (Form.forceOcr st0) eqn:E; simpl; by split.
  - unfold toggle_force_ocr, forceOcr_effect. simpl. by rewrite Hty.
Qed.

Lemma force_ocr_witness :
  exists files options,
    submitScan noon (bridged_form (Some "token") [c_txt])
      = ScanRequested files options /\
    CreateScanOptions.forceOcr options = false /\
    Forall (fun entry => fst entry <> "force_ocr")
      (createScan_form files options).
Proof.
  eexists _, _. split; [vm_compute; reflexivity|].
  apply (proj1 (force_ocr_never_sent_for_sentence_transformer
                  noon (bridged_form (Some "token") [c_txt]) eq_refl)).
  vm_compute. reflexivity.
Defined.

(** * Further properties of the workbench *)

Set Warnings "-clear-no-such-hyp".

(** ** Sets and membership tests *)

Lemma includes_string_elem x l : includes_string x l = true <-> x ∈ l.
Proof.
  unfold includes_string. rewrite existsb_exists, list_elem_of_In. split.
  - by intros (y & Hy & ->%String.eqb_eq).
  - intros Hx. exists x. split; [done|apply String.eqb_refl].
Qed.

Lemma includes_string_not_elem x l : includes_string x l = false <-> x ∉ l.
Proof.
  rewrite <- includes_string_elem. by destruct (includes_string x l).
Qed.

Lemma includes_bool_elem (b : bool) l : includes_bool b l = true <-> b ∈ l.
Proof.
  unfold includes_bool. rewrite existsb_exists, list_elem_of_In. split.
  - by intros (y & Hy & ->%Bool.eqb_prop).
  - intros Hx. exists b. split; [done|apply Bool.eqb_reflx].
Qed.

Lemma JsSet_of_list_snoc l x :
  JsSet.of_list (l ++ [x]) = JsSet.add x (JsSet.of_list l).
Proof. unfold JsSet.of_list. by rewrite fold_left_app. Qed.

Lemma JsSet_add_elem x y s : y ∈ JsSet.add x s <-> y = x \/ y ∈ s.
Proof.
  unfold JsSet.add, JsSet.has.
  destruct (includes_string x s) eqn:E.
  - apply includes_string_elem in E. split; [by right|]. by intros [->|].
  - rewrite elem_of_app, list_elem_of_singleton. tauto.
Qed.

Lemma JsSet_add_NoDup x s : NoDup s -> NoDup (JsSet.add x s).
Proof.
  intros Hs. unfold JsSet.add, JsSet.has.
  destruct (includes_string x s) eqn:E; [done|].
  apply includes_string_not_elem in E.
  apply NoDup_app. split_and!; [done| |apply NoDup_singleton].
  by intros y Hy ->%list_elem_of_singleton.
Qed.

Lemma JsSet_of_list_elem l y : y ∈ JsSet.of_list l <-> y ∈ l.
Proof.
  induction l as [|x l IH] using rev_ind.
  - done.
  - rewrite JsSet_of_list_snoc, JsSet_add_elem, IH, elem_of_app,
      list_elem_of_singleton. tauto.
Qed.

Lemma JsSet_of_list_NoDup l : NoDup (JsSet.of_list l).
Proof.
  induction l as [|x l IH] using rev_ind; [constructor|].
  rewrite JsSet_of_list_snoc. by apply JsSet_add_NoDup.
Qed.

Lemma JsSet_delete_elem x y s : y ∈ JsSet.delete x s <-> y <> x /\ y ∈ s.
Proof.
  unfold JsSet.delete. rewrite !list_elem_of_In, filter_In.
  rewrite negb_true_iff, String.eqb_neq. tauto.
Qed.

Lemma JsSet_delete_NoDup x s : NoDup s -> NoDup (JsSet.delete x s).
Proof.
  unfold JsSet.delete. rewrite !NoDup_ListNoDup. apply List.NoDup_filter.
Qed.

(** ** The rows of the aggregation *)

Lemma grouped_map_keyed sc cs :
  Forall (fun kv => Group.key (snd kv) = fst kv) (grouped_map sc cs).
Proof.
  apply Forall_forall. intros [k g] Hin. simpl.
  apply elem_get_Some in Hin; [|apply grouped_map_NoDup].
  rewrite grouped_map_get in Hin.
  destruct (members k cs) as [|c ms] eqn:Hms; simpl in Hin; [done|].
  injection Hin as <-. rewrite merge_fold_key. simpl.
  assert (Hc : c ∈ members k cs) by (rewrite Hms; apply elem_of_cons; by left).
  by apply list_elem_of_filter in Hc as [-> _].
Qed.

Lemma grouped_map_row_keys sc cs :
  List.map Group.key (JsMap.values (grouped_map sc cs))
  = JsMap.keys (grouped_map sc cs).
Proof.
  pose proof (grouped_map_keyed sc cs) as H.
  unfold JsMap.values, JsMap.keys.
  induction H as [|[k g] m Hk _ IH]; simpl; [done|].
  simpl in Hk. by rewrite Hk, IH.
Qed.

Lemma grouped_map_first_seen sc cs :
  JsMap.keys (grouped_map sc cs) = JsSet.of_list (List.map candidate_key cs).
Proof.
  induction cs as [|c cs IH] using rev_ind; [done|].
  rewrite grouped_map_snoc, List.map_app. simpl.
  rewrite JsSet_of_list_snoc, <- IH. unfold group_step.
  unfold JsSet.add, JsSet.has.
  destruct (JsMap.get (candidate_key c) (grouped_map sc cs)) eqn:E;
    rewrite keys_set, E.
  - assert (H : candidate_key c ∈ JsMap.keys (grouped_map sc cs)).
    { destruct (decide (candidate_key c ∈ JsMap.keys (grouped_map sc cs)));
        [done|]. apply get_None_keys in n. congruence. }
    apply includes_string_elem in H. by rewrite H.
  - apply get_None_keys, includes_string_not_elem in E. by rewrite E.
Qed.

(** X1. The result has exactly one row for every key that occurs in the
    pool, and no other row. *)
Theorem groupedCandidates_one_row_per_key :
  forall scanSitCategory candidates,
    NoDup (List.map Group.key (groupedCandidates scanSitCategory candidates)) /\
    (forall k,
       k ∈ List.map Group.key (groupedCandidates scanSitCategory candidates)
       <-> k ∈ List.map candidate_key candidates).
Proof.
  intros sc cs.
  assert (Hperm : List.map Group.key (groupedCandidates sc cs)
                  ≡ₚ JsSet.of_list (List.map candidate_key cs)).
  { unfold groupedCandidates. rewrite array_sort_Permutation.
    by rewrite grouped_map_row_keys, grouped_map_first_seen. }
  split.
  - rewrite Hperm. apply JsSet_of_list_NoDup.
  - intros k. rewrite Hperm. apply JsSet_of_list_elem.
Qed.

Lemma JsMap_set_total_frequency k g m :
  total_frequency (JsMap.values (JsMap.set k g m)) =
  (total_frequency (JsMap.values m) + Group.frequency g
   - match JsMap.get k m with
     | Some old => Group.frequency old
     | None => 0
     end)%Z.
Proof.
  induction m as [|[k' g'] m IH]; simpl; [lia|].
  destruct (String.eqb k k'); simpl; [lia|].
  rewrite IH. lia.
Qed.

Lemma total_frequency_Permutation rows1 rows2 :
  rows1 ≡ₚ rows2 -> total_frequency rows1 = total_frequency rows2.
Proof. induction 1; simpl; lia. Qed.

(** X2. In a pool whose occurrence counts are not negative and add up to a
    safe integer (at most 2^53 - 1, so that the additions of counts are
    exact), occurrence counts are neither lost nor counted twice: the count
    of a row is the sum of the counts of the pool's candidates with its key,
    which is also what the additions in doubles give, and the counts of all
    rows add up to the counts of all candidates. *)
Theorem groupedCandidates_conserves_frequency :
  forall scanSitCategory candidates,
    safe_counts candidates ->
    (forall g,
       g ∈ groupedCandidates scanSitCategory candidates ->
       Group.frequency g = sum_frequency (members (Group.key g) candidates) /\
       Group.frequency g
         = double_frequency (members (Group.key g) candidates)) /\
    total_frequency (groupedCandidates scanSitCategory candidates)
      = sum_frequency candidates.
Proof.
  intros sc cs [Hfreq Hsafe]. split.
  - intros g Hg.
    assert (Hsum : Group.frequency g
                   = sum_frequency (members (Group.key g) cs)).
    { destruct (group_members sc cs g Hg) as (c & ms & Hms & Heq).
      rewrite Hms, Heq, merge_fold_frequency. reflexivity. }
    split; [exact Hsum|]. rewrite Hsum. symmetry.
    assert (Hsub : members (Group.key g) cs ⊆+ cs)
      by (unfold members; apply sublist_submseteq, sublist_filter).
    apply double_frequency_exact.
    + apply Forall_forall. intros c Hc. rewrite Forall_forall in Hfreq.
      apply Hfreq. by eapply elem_of_submseteq.
    + etrans; [|exact Hsafe]. by apply sum_frequency_submseteq.
  - unfold groupedCandidates.
    rewrite (total_frequency_Permutation _ _ (array_sort_Permutation _ _)).
    clear Hfreq Hsafe.
    induction cs as [|c cs IH] using rev_ind; [done|].
    rewrite grouped_map_snoc, sum_frequency_app. unfold group_step. simpl.
    destruct (JsMap.get (candidate_key c) (grouped_map sc cs)) eqn:E;
      rewrite JsMap_set_total_frequency, E, IH; simpl; lia.
Qed.

Lemma groupedCandidates_conserves_frequency_witness :
  total_frequency
    (groupedCandidates None
       [ssn_candidate "a.txt" 80 true "c-1" 2 None None;
        ssn_candidate "b.txt" 90 false "c-2" 3 None None])
  = sum_frequency
      [ssn_candidate "a.txt" 80 true "c-1" 2 None None;
       ssn_candidate "b.txt" 90 false "c-2" 3 None None].
Proof.
  apply (groupedCandidates_conserves_frequency None
           [ssn_candidate "a.txt" 80 true "c-1" 2 None None;
            ssn_candidate "b.txt" 90 false "c-2" 3 None None]).
  split; [repeat constructor; simpl; lia|vm_compute; discriminate].
Defined.

(** The sort moves no row past a row of the same rank. *)
Lemma sort_insert_stable {A} (rank : A -> Z) (r : Z) x l :
  filter (fun a => rank a = r) (sort_insert (descending rank) x l)
  = filter (fun a => rank a = r) (x :: l).
Proof.
  induction l as [|y l IH]; simpl; [done|].
  unfold descending at 1. destruct (Z.leb_spec (rank y - rank x) 0); [done|].
  rewrite (filter_cons _ y), IH, !filter_cons.
  destruct (decide (rank y = r)), (decide (rank x = r)); try done. lia.
Qed.

Lemma array_sort_stable {A} (rank : A -> Z) (r : Z) l :
  filter (fun a => rank a = r) (array_sort (descending rank) l)
  = filter (fun a => rank a = r) l.
Proof.
  induction l as [|x l IH]; simpl; [done|].
  by rewrite sort_insert_stable, !filter_cons, IH.
Qed.

(** X3. Rows whose scores tie (a missing score counting as -1) stay in the
    order in which their keys first occur in the pool. *)
Theorem groupedCandidates_ties_in_first_seen_order :
  forall scanSitCategory candidates (r : Z),
    List.map Group.key
      (filter (fun g => effective_score (Group.score g) = r)
         (groupedCandidates scanSitCategory candidates))
    `sublist_of` JsSet.of_list (List.map candidate_key candidates).
Proof.
  intros sc cs r. unfold groupedCandidates.
  change by_score_desc
    with (descending (fun g => effective_score (Group.score g))).
  rewrite (array_sort_stable (fun g => effective_score (Group.score g))).
  rewrite <- (grouped_map_first_seen sc), <- grouped_map_row_keys.
  apply (fmap_sublist Group.key), sublist_filter.
Qed.

(** ** Provenance of a row *)

Section RowProvenance.
Variable scanSitCategory : option string.
Local Abbreviation sc := scanSitCategory.

Lemma merge_fold_fileNames ms g :
  NoDup (Group.fileNames g) ->
  NoDup (Group.fileNames (fold_left (merge_into sc) ms g)) /\
  forall f,
    f ∈ Group.fileNames (fold_left (merge_into sc) ms g) <->
    f ∈ Group.fileNames g \/
    (f <> "" /\ exists c, c ∈ ms /\ meta file_name c = Some f).
Proof.
  revert g. induction ms as [|c ms IH]; intros g Hg; simpl.
  - split; [done|]. intros f. split; [by left|].
    intros [?|(_ & c & Hc & _)]; [done|]. by apply elem_of_nil in Hc.
  - assert (Hstep :
      NoDup (Group.fileNames (merge_into sc g c)) /\
      forall f, f ∈ Group.fileNames (merge_into sc g c) <->
                f ∈ Group.fileNames g \/
                (f <> "" /\ meta file_name c = Some f)).
    { simpl. destruct (meta file_name c) as [n|]; [|naive_solver].
      destruct n as [|a n]; simpl; [naive_solver|].
      destruct (includes_string (String a n) (Group.fileNames g)) eqn:E;
        simpl.
      - apply includes_string_elem in E. naive_solver.
      - apply includes_string_not_elem in E. split.
        + apply NoDup_app. split_and!; [done| |apply NoDup_singleton].
          by intros y Hy ->%list_elem_of_singleton.
        + intros f. rewrite elem_of_app, list_elem_of_singleton.
          naive_solver. }
    destruct Hstep as [Hnd Hmem].
    destruct (IH (merge_into sc g c) Hnd) as [Hnd' Hmem'].
    split; [done|]. intros f. rewrite Hmem', Hmem.
    setoid_rewrite elem_of_cons. naive_solver.
Qed.

Lemma merge_fold_extractionModules ms g :
  NoDup (Group.extractionModules g) ->
  NoDup (Group.extractionModules (fold_left (merge_into sc) ms g)) /\
  forall f,
    f ∈ Group.extractionModules (fold_left (merge_into sc) ms g) <->
    f ∈ Group.extractionModules g \/
    (f <> "" /\ exists c, c ∈ ms /\ meta extraction_module c = Some f).
Proof.
  revert g. induction ms as [|c ms IH]; intros g Hg; simpl.
  - split; [done|]. intros f. split; [by left|].
    intros [?|(_ & c & Hc & _)]; [done|]. by apply elem_of_nil in Hc.
  - assert (Hstep :
      NoDup (Group.extractionModules (merge_into sc g c)) /\
      forall f, f ∈ Group.extractionModules (merge_into sc g c) <->
                f ∈ Group.extractionModules g \/
                (f <> "" /\ meta extraction_module c = Some f)).
    { simpl. destruct (meta extraction_module c) as [n|]; [|naive_solver].
      destruct n as [|a n]; simpl; [naive_solver|].
      destruct (includes_string (String a n) (Group.extractionModules g))
        eqn:E; simpl.
      - apply includes_string_elem in E. naive_solver.
      - apply includes_string_not_elem in E. split.
        + apply NoDup_app. split_and!; [done| |apply NoDup_singleton].
          by intros y Hy ->%list_elem_of_singleton.
        + intros f. rewrite elem_of_app, list_elem_of_singleton.
          naive_solver. }
    destruct Hstep as [Hnd Hmem].
    destruct (IH (merge_into sc g c) Hnd) as [Hnd' Hmem'].
    split; [done|]. intros f. rewrite Hmem', Hmem.
    setoid_rewrite elem_of_cons. naive_solver.
Qed.

Lemma merge_fold_ocrStates ms g :
  NoDup (Group.ocrStates g) ->
  NoDup (Group.ocrStates (fold_left (merge_into sc) ms g)) /\
  forall b,
    b ∈ Group.ocrStates (fold_left (merge_into sc) ms g) <->
    b ∈ Group.ocrStates g \/
    exists c, c ∈ ms /\ meta ocr_performed c = Some b.
Proof.
  revert g. induction ms as [|c ms IH]; intros g Hg; simpl.
  - split; [done|]. intros f. split; [by left|].
    intros [?|(c & Hc & _)]; [done|]. by apply elem_of_nil in Hc.
  - assert (Hstep :
      NoDup (Group.ocrStates (merge_into sc g c)) /\
      forall b, b ∈ Group.ocrStates (merge_into sc g c) <->
                b ∈ Group.ocrStates g \/ meta ocr_performed c = Some b).
    { simpl. destruct (meta ocr_performed c) as [n|]; [|naive_solver].
      destruct (includes_bool n (Group.ocrStates g)) eqn:E; simpl.
      - apply includes_bool_elem in E. naive_solver.
      - assert (Hn : n ∉ Group.ocrStates g).
        { intros Hn%includes_bool_elem. congruence. }
        split.
        + apply NoDup_app. split_and!; [done| |apply NoDup_singleton].
          by intros y Hy ->%list_elem_of_singleton.
        + intros f. rewrite elem_of_app, list_elem_of_singleton.
          naive_solver. }
    destruct Hstep as [Hnd Hmem].
    destruct (IH (merge_into sc g c) Hnd) as [Hnd' Hmem'].
    split; [done|]. intros f. rewrite Hmem', Hmem.
    setoid_rewrite elem_of_cons. naive_solver.
Qed.
End RowProvenance.

(** X4. The file names of a row are, without repetition, exactly the
    non-empty file names of the pool's candidates with its key; and so are
    its extraction modules. *)
Theorem row_file_names_and_modules :
  forall scanSitCategory candidates g,
    g ∈ groupedCandidates scanSitCategory candidates ->
    (NoDup (Group.fileNames g) /\
     forall f,
       f ∈ Group.fileNames g <->
       f <> "" /\
       exists c, c ∈ members (Group.key g) candidates /\
                 meta file_name c = Some f) /\
    (NoDup (Group.extractionModules g) /\
     forall m,
       m ∈ Group.extractionModules g <->
       m <> "" /\
       exists c, c ∈ members (Group.key g) candidates /\
                 meta extraction_module c = Some m).
Proof.
  intros sc cs g (c & ms & Hms & Hg)%group_members. rewrite Hms. split.
  - assert (Hnew : NoDup (Group.fileNames (new_group sc c))).
    { simpl. destruct (meta file_name c) as [[|a n]|]; simpl;
        repeat constructor; apply not_elem_of_nil. }
    destruct (merge_fold_fileNames sc ms _ Hnew) as [Hnd Hmem].
    rewrite <- Hg in Hnd, Hmem. split; [done|]. intros f. rewrite Hmem.
    setoid_rewrite elem_of_cons. simpl.
    destruct (meta file_name c) as [[|a n]|] eqn:E; simpl;
      rewrite ?list_elem_of_singleton; split;
      try (intros [H|H]; [by apply elem_of_nil in H|]); naive_solver.
  - assert (Hnew : NoDup (Group.extractionModules (new_group sc c))).
    { simpl. destruct (meta extraction_module c) as [[|a n]|]; simpl;
        repeat constructor; apply not_elem_of_nil. }
    destruct (merge_fold_extractionModules sc ms _ Hnew) as [Hnd Hmem].
    rewrite <- Hg in Hnd, Hmem. split; [done|]. intros f. rewrite Hmem.
    setoid_rewrite elem_of_cons. simpl.
    destruct (meta extraction_module c) as [[|a n]|] eqn:E; simpl;
      rewrite ?list_elem_of_singleton; split;
      try (intros [H|H]; [by apply elem_of_nil in H|]); naive_solver.
Qed.

Lemma row_file_names_witness :
  let pool := [ssn_candidate "a.txt" 80 true "c-1" 2 None None;
               ssn_candidate "b.txt" 90 false "c-2" 3 None None] in
  let g := merge_into None
             (new_group None (ssn_candidate "a.txt" 80 true "c-1" 2 None None))
             (ssn_candidate "b.txt" 90 false "c-2" 3 None None) in
  NoDup (Group.fileNames g) /\ NoDup (Group.extractionModules g).
Proof.
  intros pool g.
  assert (Hg : g ∈ groupedCandidates None pool) by (vm_compute; constructor).
  pose proof (row_file_names_and_modules None pool g Hg) as [[H1 _] [H2 _]].
  split; [exact H1|exact H2].
Defined.

Lemma NoDup_bool_cases (l : list bool) :
  NoDup l ->
  l = [] \/ l = [true] \/ l = [false] \/ l = [true; false]
  \/ l = [false; true].
Proof.
  intros Hnd. destruct l as [|a [|b [|c l]]].
  - by left.
  - destruct a; naive_solver.
  - apply NoDup_cons in Hnd as [Hab _].
    rewrite list_elem_of_singleton in Hab. destruct a, b; naive_solver.
  - exfalso. apply NoDup_cons in Hnd as [Ha Hnd].
    apply NoDup_cons in Hnd as [Hb _].
    apply not_elem_of_cons in Ha as [H1 Ha].
    apply not_elem_of_cons in Ha as [H2 _].
    apply not_elem_of_cons in Hb as [H3 _].
    destruct a, b, c; congruence.
Qed.

(** X5. For a scan that is not a sentence-transformer scan, the OCR cell of
    a row reads "-" when no candidate of its key reports whether OCR was
    used, "Yes" when those that report all say yes, "No" when they all say
    no, and "Mixed" when some say yes and some say no. *)
Theorem ocr_cell_reflects_member_reports :
  forall scanSitCategory candidates g,
    g ∈ groupedCandidates scanSitCategory candidates ->
    let reports b :=
      exists c, c ∈ members (Group.key g) candidates /\
                meta ocr_performed c = Some b in
    (ocr_cell false g = "-" <-> ~ reports true /\ ~ reports false) /\
    (ocr_cell false g = "Yes" <-> reports true /\ ~ reports false) /\
    (ocr_cell false g = "No" <-> ~ reports true /\ reports false) /\
    (ocr_cell false g = "Mixed" <-> reports true /\ reports false).
Proof.
  intros sc cs g Hg reports.
  assert (Hstates : NoDup (Group.ocrStates g) /\
                    forall b, b ∈ Group.ocrStates g <-> reports b).
  { destruct (group_members sc cs g Hg) as (c & ms & Hms & Heq).
    unfold reports. rewrite Hms.
    assert (Hnew : NoDup (Group.ocrStates (new_group sc c))).
    { simpl. destruct (meta ocr_performed c); repeat constructor;
        apply not_elem_of_nil. }
    destruct (merge_fold_ocrStates sc ms _ Hnew) as [Hnd Hmem].
    rewrite <- Heq in Hnd, Hmem. split; [done|]. intros b. rewrite Hmem.
    setoid_rewrite elem_of_cons. simpl.
    destruct (meta ocr_performed c) as [b0|] eqn:E; simpl;
      rewrite ?list_elem_of_singleton; split;
      try (intros [H|H]; [by apply elem_of_nil in H|]); naive_solver. }
  destruct Hstates as [Hnd Hmem]. unfold ocr_cell.
  rewrite <- !Hmem.
  destruct (NoDup_bool_cases _ Hnd) as [-> | [-> | [-> | [-> | ->]]]];
    simpl; rewrite ?elem_of_cons, ?list_elem_of_singleton;
    pose proof (not_elem_of_nil true); pose proof (not_elem_of_nil false);
    naive_solver.
Qed.

Lemma ocr_cell_witness :
  let pool := [ssn_candidate "a.txt" 80 true "c-1" 2 None None;
               ssn_candidate "b.txt" 90 false "c-2" 3 None None] in
  let g := merge_into None
             (new_group None (ssn_candidate "a.txt" 80 true "c-1" 2 None None))
             (ssn_candidate "b.txt" 90 false "c-2" 3 None None) in
  (exists c, c ∈ members (Group.key g) pool /\ meta ocr_performed c = Some true)
  /\ (exists c, c ∈ members (Group.key g) pool
                /\ meta ocr_performed c = Some false).
Proof.
  intros pool g.
  assert (Hg : g ∈ groupedCandidates None pool) by (vm_compute; constructor).
  pose proof (ocr_cell_reflects_member_reports None pool g Hg)
    as (_ & _ & _ & Hmixed).
  apply Hmixed. reflexivity.
Defined.

Lemma merge_fold_identity sc ms g :
  Group.candidate_id (fold_left (merge_into sc) ms g) = Group.candidate_id g /\
  Group.candidate_type (fold_left (merge_into sc) ms g)
    = Group.candidate_type g /\
  Group.value (fold_left (merge_into sc) ms g) = Group.value g.
Proof.
  revert g. induction ms as [|c ms IH]; intros g; simpl; [done|].
  destruct (IH (merge_into sc g c)) as (-> & -> & ->). done.
Qed.

(** X6. A row shows the id, type and value of the first candidate of the
    pool that has its key, and its key is that type and value joined by
    "::". *)
Theorem row_identity_is_first_member :
  forall scanSitCategory candidates g,
    g ∈ groupedCandidates scanSitCategory candidates ->
    exists first rest,
      members (Group.key g) candidates = first :: rest /\
      Group.candidate_id g = candidate_id first /\
      Group.candidate_type g = candidate_type first /\
      Group.value g = value first /\
      Group.key g = Group.candidate_type g +:+ "::" +:+ Group.value g.
Proof.
  intros sc cs g (c & ms & Hms & Hg)%group_members.
  exists c, ms. split; [done|].
  destruct (merge_fold_identity sc ms (new_group sc c)) as (Hid & Hty & Hv).
  rewrite <- Hg in Hid, Hty, Hv. rewrite Hid, Hty, Hv.
  repeat split; try done.
  rewrite Hg, merge_fold_key. reflexivity.
Qed.

Lemma row_identity_witness :
  let pool := [ssn_candidate "a.txt" 80 true "c-1" 2 None None;
               ssn_candidate "b.txt" 90 false "c-2" 3 None None] in
  let g := merge_into None
             (new_group None (ssn_candidate "a.txt" 80 true "c-1" 2 None None))
             (ssn_candidate "b.txt" 90 false "c-2" 3 None None) in
  exists first rest,
    members (Group.key g) pool = first :: rest /\
    Group.candidate_id g = candidate_id first /\
    Group.candidate_type g = candidate_type first /\
    Group.value g = value first /\
    Group.key g = Group.candidate_type g +:+ "::" +:+ Group.value g.
Proof.
  intros pool g. apply (row_identity_is_first_member None pool g).
  vm_compute. constructor.
Defined.

(** X7. The score of a row is the score of one of the pool's candidates
    with its key, and no such candidate has a higher score, a missing score
    counting as -1. *)
Theorem row_score_is_member_maximum :
  forall scanSitCategory candidates g,
    g ∈ groupedCandidates scanSitCategory candidates ->
    (exists c, c ∈ members (Group.key g) candidates /\
               Group.score g = score c) /\
    (forall c, c ∈ members (Group.key g) candidates ->
               (effective_score (score c)
                  <= effective_score (Group.score g))%Z).
Proof.
  intros sc cs g (c & ms & Hms & Hg)%group_members. rewrite Hms. split.
  - destruct (merge_fold_score_attained sc ms (new_group sc c))
      as [H|(c' & Hc' & H)]; rewrite <- Hg in H.
    + exists c. split; [apply elem_of_cons; by left|done].
    + exists c'. split; [apply elem_of_cons; by right|done].
  - destruct (merge_fold_score_upper sc ms (new_group sc c)) as [H1 H2].
    rewrite <- Hg in H1, H2.
    intros c' [->|Hc']%elem_of_cons; [exact H1|by apply H2].
Qed.

Lemma row_score_witness :
  let pool := [ssn_candidate "a.txt" 80 true "c-1" 2 None None;
               ssn_candidate "b.txt" 90 false "c-2" 3 None None] in
  let g := merge_into None
             (new_group None (ssn_candidate "a.txt" 80 true "c-1" 2 None None))
             (ssn_candidate "b.txt" 90 false "c-2" 3 None None) in
  exists c, c ∈ members (Group.key g) pool /\ Group.score g = score c.
Proof.
  intros pool g.
  assert (Hg : g ∈ groupedCandidates None pool) by (vm_compute; constructor).
  exact (proj1 (row_score_is_member_maximum None pool g Hg)).
Defined.

(** ** The key of a candidate *)

Lemma has_colon_append s t :
  has_colon (s +:+ t) = has_colon s || has_colon t.
Proof.
  induction s as [|a s IH]; [done|].
  rewrite app_cons. simpl. rewrite IH. by rewrite orb_assoc.
Qed.

Lemma first_colon_split t1 t2 v1 v2 :
  has_colon t1 = false -> has_colon t2 = false ->
  t1 +:+ String ":" v1 = t2 +:+ String ":" v2 -> t1 = t2 /\ v1 = v2.
Proof.
  revert t2. induction t1 as [|a t1 IH]; intros [|b t2] H1 H2 Heq.
  - by injection Heq.
  - change (String ":" v1 = String b (t2 +:+ String ":" v2)) in Heq.
    injection Heq as <- _. simpl in H2. discriminate.
  - change (String a (t1 +:+ String ":" v1) = String ":" v2) in Heq.
    injection Heq as -> _. simpl in H1. discriminate.
  - rewrite !app_cons in Heq. injection Heq as -> Heq.
    simpl in H1, H2. apply orb_false_iff in H1 as [_ H1].
    apply orb_false_iff in H2 as [_ H2].
    destruct (IH _ H1 H2 Heq) as [-> ->]. done.
Qed.

(** X8. Candidates whose types contain no colon share a key only when they
    have the same type and the same value. A type that contains "::" can
    collide: the candidate of type [t::u] and value [v] and the candidate of
    type [t] and value [u::v] have one key, and end up in one row. *)
Theorem candidate_key_identifies_type_and_value :
  (forall c1 c2,
     has_colon (candidate_type c1) = false ->
     has_colon (candidate_type c2) = false ->
     candidate_key c1 = candidate_key c2 ->
     candidate_type c1 = candidate_type c2 /\ value c1 = value c2) /\
  (forall scanSitCategory c1 c2 t u v,
     candidate_type c1 = t +:+ "::" +:+ u -> value c1 = v ->
     candidate_type c2 = t -> value c2 = u +:+ "::" +:+ v ->
     candidate_key c1 = candidate_key c2 /\
     groupedCandidates scanSitCategory [c1; c2]
       = [merge_into scanSitCategory (new_group scanSitCategory c1) c2]).
Proof.
  split.
  - intros c1 c2 H1 H2 Hk. unfold candidate_key in Hk.
    change (candidate_type c1 +:+ String ":" (String ":" (value c1)) =
            candidate_type c2 +:+ String ":" (String ":" (value c2))) in Hk.
    apply first_colon_split in Hk as [Hty Hv]; [|done..].
    split; [done|]. by injection Hv.
  - intros sc c1 c2 t u v Hty1 Hv1 Hty2 Hv2.
    assert (Hk : candidate_key c1 = candidate_key c2).
    { unfold candidate_key. rewrite Hty1, Hv1, Hty2, Hv2.
      by rewrite !app_assoc_string. }
    split; [done|]. by apply groupedCandidates_same_key.
Qed.

Lemma candidate_key_witness :
  groupedCandidates None
    [bare_candidate "ID::US" "42" None; bare_candidate "ID" "US::42" None]
  = [merge_into None (new_group None (bare_candidate "ID::US" "42" None))
       (bare_candidate "ID" "US::42" None)].
Proof.
  apply (proj2 candidate_key_identifies_type_and_value None
           (bare_candidate "ID::US" "42" None)
           (bare_candidate "ID" "US::42" None) "ID" "US" "42");
    reflexivity.
Defined.

(** ** More on the working file set *)

(** Two maps with the same keys in the same order and the same value under
    every key are equal. *)
Lemma JsMap_ext {V} (m1 m2 : JsMap.t V) :
  NoDup (JsMap.keys m1) -> JsMap.keys m1 = JsMap.keys m2 ->
  (forall k, JsMap.get k m1 = JsMap.get k m2) -> m1 = m2.
Proof.
  revert m2. induction m1 as [|[k v] m1 IH]; intros [|[k' v'] m2] Hnd Hk Hget;
    try done.
  simpl in Hk. injection Hk as <- Hk.
  apply NoDup_cons in Hnd as [Hk1 Hnd].
  pose proof (Hget k) as Hv. simpl in Hv. rewrite String.eqb_refl in Hv.
  injection Hv as <-. f_equal. apply IH; [done|done|].
  intros k0. destruct (decide (k0 = k)) as [->|Hne].
  - assert (H1 : JsMap.get k m1 = None) by (by apply get_None_keys).
    assert (H2 : JsMap.get k m2 = None)
      by (apply get_None_keys; by rewrite <- Hk).
    by rewrite H1, H2.
  - specialize (Hget k0). simpl in Hget.
    apply String.eqb_neq in Hne. by rewrite Hne in Hget.
Qed.

Section FoldSet.
Local Abbreviation put_all gs m :=
  (fold_left (fun acc file => JsMap.set (file_key file) file acc) gs m).

Lemma put_all_snoc gs g (m : JsMap.t File.t) :
  put_all (gs ++ [g]) m = JsMap.set (file_key g) g (put_all gs m).
Proof. by rewrite fold_left_app. Qed.

(** After the incoming files are put, a key holds the last incoming file
    of that key, or what it held before. *)
Lemma put_all_get gs (m : JsMap.t File.t) k :
  JsMap.get k (put_all gs m) =
  match List.find (fun g => String.eqb (file_key g) k) (rev gs) with
  | Some g => Some g
  | None => JsMap.get k m
  end.
Proof.
  induction gs as [|g gs IH] using rev_ind; [done|].
  rewrite put_all_snoc, rev_unit. simpl.
  destruct (String.eqb_spec (file_key g) k) as [<-|Hne].
  - apply get_set_eq.
  - by rewrite get_set_ne.
Qed.

Lemma put_all_keys_prefix gs (m : JsMap.t File.t) :
  JsMap.keys m `prefix_of` JsMap.keys (put_all gs m).
Proof.
  induction gs as [|g gs IH] using rev_ind; [done|].
  rewrite put_all_snoc, keys_set.
  destruct (JsMap.get _ _); [done|]. by apply prefix_app_r.
Qed.

Lemma put_all_keys_incoming gs (m : JsMap.t File.t) g :
  g ∈ gs -> file_key g ∈ JsMap.keys (put_all gs m).
Proof.
  induction gs as [|g' gs IH] using rev_ind.
  - intros H. by apply elem_of_nil in H.
  - rewrite put_all_snoc, keys_set.
    intros [Hin | Heq%list_elem_of_singleton]%elem_of_app.
    + destruct (JsMap.get _ _); [by apply IH|].
      apply elem_of_app. left. by apply IH.
    + subst g'. destruct (JsMap.get (file_key g) (put_all gs m)) eqn:E.
      * destruct (decide (file_key g ∈ JsMap.keys (put_all gs m)));
          [done|]. apply get_None_keys in n. congruence.
      * apply elem_of_app. right. by apply list_elem_of_singleton.
Qed.

Lemma set_values_elem {V} k (v x : V) (m : JsMap.t V) :
  x ∈ JsMap.values (JsMap.set k v m) -> x = v \/ x ∈ JsMap.values m.
Proof.
  unfold JsMap.values. induction m as [|[k' v'] m IH]; simpl.
  - intros ->%list_elem_of_singleton. by left.
  - destruct (String.eqb k k'); simpl; rewrite !elem_of_cons; naive_solver.
Qed.

Lemma put_all_values_elem gs (m : JsMap.t File.t) x :
  x ∈ JsMap.values (put_all gs m) -> x ∈ gs \/ x ∈ JsMap.values m.
Proof.
  induction gs as [|g gs IH] using rev_ind; [by right|].
  rewrite put_all_snoc. intros [->|H]%set_values_elem.
  - left. apply elem_of_app. right. by apply list_elem_of_singleton.
  - destruct (IH H); [left; apply elem_of_app|]; auto.
Qed.

Lemma put_all_keys_present gs (m : JsMap.t File.t) :
  (forall g, g ∈ gs -> file_key g ∈ JsMap.keys m) ->
  JsMap.keys (put_all gs m) = JsMap.keys m.
Proof.
  induction gs as [|g gs IH] using rev_ind; [done|]. intros Hin.
  rewrite put_all_snoc, keys_set.
  assert (Hgs : JsMap.keys (put_all gs m) = JsMap.keys m).
  { apply IH. intros g' Hg'. apply Hin, elem_of_app. by left. }
  destruct (JsMap.get (file_key g) (put_all gs m)) eqn:E; [done|].
  apply get_None_keys in E. rewrite Hgs in E. exfalso. apply E, Hin.
  apply elem_of_app. right. by apply list_elem_of_singleton.
Qed.

(** Putting the same files a second time changes nothing. *)
Lemma put_all_twice gs (m : JsMap.t File.t) :
  NoDup (JsMap.keys m) -> put_all gs (put_all gs m) = put_all gs m.
Proof.
  intros Hnd.
  assert (Hnd' : forall gs' m', NoDup (JsMap.keys m') ->
                                NoDup (JsMap.keys (put_all gs' m'))).
  { intros gs'. induction gs' as [|g gs' IH] using rev_ind; [done|].
    intros m' Hm'. rewrite put_all_snoc. by apply NoDup_keys_set, IH. }
  apply JsMap_ext.
  - by apply Hnd', Hnd'.
  - apply put_all_keys_present. intros g Hg. by apply put_all_keys_incoming.
  - intros k. rewrite (put_all_get gs (put_all gs m)).
    destruct (List.find _ (rev gs)) eqn:E; [|done].
    by rewrite put_all_get, E.
Qed.
End FoldSet.

(** X9. The working file set never holds two entries with the same name,
    byte length and last-modified time. *)
Theorem working_set_has_no_duplicate_identity :
  forall fs i j f g,
    files_state fs ->
    fs !! i = Some f -> fs !! j = Some g -> same_identity f g -> i = j.
Proof.
  intros fs i j f g Hfs Hi Hj Hsame.
  pose proof (files_state_NoDup fs Hfs) as Hnd.
  apply file_key_same_identity in Hsame.
  eapply (proj1 (NoDup_alt _) Hnd i j (file_key f)).
  - change (map file_key fs) with (file_key <$> fs).
    by rewrite list_lookup_fmap, Hi.
  - change (map file_key fs) with (file_key <$> fs).
    by rewrite list_lookup_fmap, Hj, Hsame.
Qed.

Lemma working_set_witness :
  (0 = 0)%nat.
Proof.
  apply (working_set_has_no_duplicate_identity
           (mergeFiles [] [a_txt; a_txt_again; b_txt]) 0 0
           a_txt_again a_txt_again
           (files_merged [] [a_txt; a_txt_again; b_txt] files_initial)).
  - reflexivity.
  - reflexivity.
  - repeat split; reflexivity.
Defined.

(** X10. Merging the same files a second time leaves the working set as
    it is: dropping a selection again adds nothing and reorders nothing. *)
Theorem mergeFiles_again_changes_nothing :
  forall prev incoming,
    files_state prev ->
    mergeFiles (mergeFiles prev incoming) incoming = mergeFiles prev incoming.
Proof.
  intros prev incoming Hprev.
  destruct incoming as [|g gs]; [done|].
  pose proof (files_state_NoDup prev Hprev) as Hnd.
  assert (Hmerged : files_state (mergeFiles prev (g :: gs)))
    by (by constructor).
  rewrite (mergeFiles_NoDup_eq (mergeFiles prev (g :: gs)) (g :: gs))
    by (by try apply files_state_NoDup).
  rewrite (mergeFiles_NoDup_eq prev (g :: gs)) by done.
  rewrite keyed_file_entries_values
    by (by apply keyed_fold_set, keyed_file_entries).
  rewrite put_all_twice; [done|].
  by rewrite keys_file_entries.
Qed.

Lemma mergeFiles_again_witness :
  mergeFiles (mergeFiles (mergeFiles [] [a_txt]) [a_txt_again; b_txt])
    [a_txt_again; b_txt]
  = mergeFiles (mergeFiles [] [a_txt]) [a_txt_again; b_txt].
Proof.
  apply (mergeFiles_again_changes_nothing (mergeFiles [] [a_txt])
           [a_txt_again; b_txt]).
  exact (files_merged [] [a_txt] files_initial).
Defined.

(** X11. Merging keeps the entries of the working set where they are (an
    entry is at most replaced by an incoming file of its identity) and adds
    new identities at the end: the identities of the old set are a prefix of
    those of the new one, every incoming file's identity is in the new set,
    every file of the new set is an old or an incoming one, and the set
    grows by at most the number of incoming files. *)
Theorem mergeFiles_keeps_positions_and_adds_incoming :
  forall prev incoming,
    files_state prev ->
    List.map file_key prev
      `prefix_of` List.map file_key (mergeFiles prev incoming) /\
    (forall g, g ∈ incoming ->
       exists f, f ∈ mergeFiles prev incoming /\ same_identity f g) /\
    (forall f, f ∈ mergeFiles prev incoming -> f ∈ prev \/ f ∈ incoming) /\
    (length prev <= length (mergeFiles prev incoming)
       <= length prev + length incoming)%nat.
Proof.
  intros prev incoming Hprev.
  destruct incoming as [|g0 gs].
  { simpl. split_and!; [done| |by left|lia|lia].
    intros g Hg. by apply elem_of_nil in Hg. }
  pose proof (files_state_NoDup prev Hprev) as Hnd.
  rewrite (mergeFiles_NoDup_eq prev (g0 :: gs)) by done.
  set (inc := g0 :: gs).
  set (M := fold_left (fun m file => JsMap.set (file_key file) file m) inc
              (file_entries prev)).
  assert (HM : keyed_by_identity M)
    by (by apply keyed_fold_set, keyed_file_entries).
  assert (Hkeys : List.map file_key (JsMap.values M) = JsMap.keys M).
  { rewrite <- keys_file_entries. by rewrite keyed_file_entries_values. }
  assert (Hprefix : List.map file_key prev `prefix_of` JsMap.keys M).
  { rewrite <- keys_file_entries. apply put_all_keys_prefix. }
  split_and!.
  - by rewrite Hkeys.
  - intros g Hg.
    pose proof (put_all_keys_incoming inc (file_entries prev) g Hg) as Hk.
    fold M in Hk. rewrite <- Hkeys in Hk.
    apply list_elem_of_fmap_1 in Hk as (f & Hf & Hin).
    exists f. split; [done|]. by apply file_key_same_identity.
  - intros f Hf. apply put_all_values_elem in Hf as [?|Hf]; [by right|].
    left. by rewrite values_file_entries in Hf.
  - destruct Hprefix as [k Hk].
    assert (Hlen : length (JsMap.values M) = length (JsMap.keys M))
      by (by rewrite <- Hkeys, List.length_map).
    rewrite Hlen, Hk, length_app, List.length_map. lia.
  - assert (Hlen : forall gs' (m : JsMap.t File.t),
              (length (fold_left
                         (fun m file => JsMap.set (file_key file) file m)
                         gs' m)
               <= length m + length gs')%nat).
    { intros gs'. induction gs' as [|g gs' IH] using rev_ind; intros m.
      - simpl. lia.
      - rewrite fold_left_app, length_app. simpl.
        pose proof (f_equal (@length _) (keys_set (file_key g) g
          (fold_left (fun m file => JsMap.set (file_key file) file m)
             gs' m))) as Hs.
        unfold JsMap.keys in Hs. rewrite List.length_map in Hs.
        rewrite Hs. specialize (IH m).
        destruct (JsMap.get _ _); rewrite ?length_app, List.length_map;
          simpl; lia. }
    unfold JsMap.values. rewrite List.length_map.
    specialize (Hlen inc (file_entries prev)). fold M in Hlen.
    unfold file_entries in Hlen. rewrite List.length_map in Hlen. lia.
Qed.

Lemma mergeFiles_keeps_positions_witness :
  List.map file_key (mergeFiles [] [a_txt; b_txt])
    `prefix_of`
    List.map file_key (mergeFiles (mergeFiles [] [a_txt; b_txt])
                         [a_txt_again; c_txt]).
Proof.
  exact (proj1 (mergeFiles_keeps_positions_and_adds_incoming
                  (mergeFiles [] [a_txt; b_txt]) [a_txt_again; c_txt]
                  (files_merged [] [a_txt; b_txt] files_initial))).
Defined.

(** ** More on the source collector *)

Lemma readAllDirectoryEntries_elem {E} (reads : list (option (list E))) all x :
  readAllDirectoryEntries reads = Some all -> x ∈ all ->
  exists batch, Some batch ∈ reads /\ x ∈ batch.
Proof.
  revert all. induction reads as [|[batch|] reads IH]; intros all; simpl.
  - intros [= <-] Hx. by apply elem_of_nil in Hx.
  - destruct batch as [|y batch].
    { intros [= <-] Hx. by apply elem_of_nil in Hx. }
    destruct (readAllDirectoryEntries reads) as [rest|]; [|done].
    intros [= <-] Hx. change (x ∈ (y :: batch) ++ rest) in Hx.
    apply elem_of_app in Hx as [Hx|Hx].
    + exists (y :: batch). split; [apply elem_of_cons; by left|done].
    + destruct (IH rest eq_refl Hx) as (b & Hb & Hxb).
      exists b. split; [apply elem_of_cons; by right|done].
  - done.
Qed.

Lemma collect_all_elem {A B} (f : A -> option (list B)) xs ys y :
  collect_all f xs = Some ys -> y ∈ ys ->
  exists x zs, x ∈ xs /\ f x = Some zs /\ y ∈ zs.
Proof.
  revert ys. induction xs as [|x xs IH]; intros ys.
  - intros [= <-] Hy. by apply elem_of_nil in Hy.
  - rewrite collect_all_cons.
    destruct (f x) as [zs|] eqn:Hfx; [|done].
    destruct (collect_all f xs) as [rest|]; [|done].
    intros [= <-] [Hy|Hy]%elem_of_app.
    + exists x, zs. split; [apply elem_of_cons; by left|done].
    + destruct (IH rest eq_refl Hy) as (x' & zs' & Hx' & Hf' & Hy').
      exists x', zs'. split; [apply elem_of_cons; by right|done].
Qed.

Lemma collect_all_None {A B} (f : A -> option (list B)) xs x :
  x ∈ xs -> f x = None -> collect_all f xs = None.
Proof.
  induction xs as [|x' xs IH]; intros Hx Hf.
  - by apply elem_of_nil in Hx.
  - rewrite collect_all_cons.
    apply elem_of_cons in Hx as [->|Hx].
    + by rewrite Hf.
    + rewrite (IH Hx Hf). by destruct (f x').
Qed.

Lemma next_path_truthy parentPath name :
  truthy_string parentPath = true ->
  next_path parentPath name = parentPath +:+ "/" +:+ name /\
  truthy_string (next_path parentPath name) = true.
Proof.
  intros H. unfold next_path. rewrite H. split; [done|].
  by destruct parentPath.
Qed.

Lemma collect_all_files parentPath (fs : list File.t) :
  collect_all (fun entry => collectFilesFromEntry entry parentPath)
    (List.map (fun f => FileEntry (File.name f) (Some f)) fs)
  = Some (List.map
            (fun f =>
               if truthy_string parentPath
               then File.renamed (parentPath +:+ "/" +:+ File.name f) f
               else f) fs).
Proof.
  induction fs as [|f fs IH]; [done|].
  simpl List.map. rewrite collect_all_cons, IH. simpl.
  by destruct (truthy_string parentPath).
Qed.

(** What [collectFilesFromEntry] returns for an entry: files of the tree,
    with their content, and under a parent path with that path in front. *)
Lemma collectFilesFromEntry_sound entry :
  forall parentPath fs f,
    collectFilesFromEntry entry parentPath = Some fs -> f ∈ fs ->
    (exists g,
       holds_file entry g /\
       File.content f = File.content g /\ File.type f = File.type g /\
       File.lastModified f = File.lastModified g) /\
    (truthy_string parentPath = true ->
     exists rest, File.name f = parentPath +:+ "/" +:+ rest).
Proof.
  induction entry as [name file|name reads IH|name]
    using FileSystemEntry_tree_ind; intros parentPath fs f Hc Hf.
  - simpl in Hc. destruct file as [file|]; [|done].
    destruct (truthy_string parentPath) eqn:Hp;
      injection Hc as <-; apply list_elem_of_singleton in Hf as ->.
    + split; [exists file; split; [constructor|done]|].
      intros _. by exists (File.name file).
    + split; [exists file; split; [constructor|done]|]. done.
  - rewrite collectFilesFromEntry_directory in Hc.
    destruct (readAllDirectoryEntries reads) as [children|] eqn:Hr; [|done].
    destruct (collect_all_elem _ _ _ _ Hc Hf)
      as (child & fs' & Hchild & Hfs' & Hf').
    destruct (readAllDirectoryEntries_elem _ _ _ Hr Hchild)
      as (batch & Hbatch & Hin).
    rewrite Forall_forall in IH. specialize (IH _ Hbatch). simpl in IH.
    rewrite Forall_forall in IH.
    destruct (IH child Hin _ _ _ Hfs' Hf') as [(g & Hg & Hsame) Hname].
    split.
    + exists g. split; [by econstructor|done].
    + intros Hp. destruct (next_path_truthy parentPath name Hp) as [Hnp Ht].
      destruct (Hname Ht) as [rest Hrest]. rewrite Hnp in Hrest.
      exists (name +:+ "/" +:+ rest).
      by rewrite Hrest, !app_assoc_string.
  - simpl in Hc. injection Hc as <-. by apply elem_of_nil in Hf.
Qed.

(** X12. Every file collected from a dropped folder with a non-empty
    name carries the folder's name and a slash in front of its name, and
    every file collected below a non-empty parent path carries that path and
    a slash. A folder with an empty name adds nothing: its children are
    collected as if they had been dropped themselves, so that its files keep
    their bare names. *)
Theorem collected_files_carry_their_folder_path :
  (forall name reads fs f,
     truthy_string name = true ->
     collectFilesFromEntry (DirectoryEntry name reads) "" = Some fs ->
     f ∈ fs -> exists rest, File.name f = name +:+ "/" +:+ rest) /\
  (forall entry parentPath fs f,
     truthy_string parentPath = true ->
     collectFilesFromEntry entry parentPath = Some fs ->
     f ∈ fs -> exists rest, File.name f = parentPath +:+ "/" +:+ rest) /\
  (forall reads,
     collectFilesFromEntry (DirectoryEntry "" reads) ""
     = match readAllDirectoryEntries reads with
       | Some children =>
           collect_all (fun child => collectFilesFromEntry child "") children
       | None => None
       end) /\
  (forall files,
     collectFilesFromEntry
       (directory ""
          [List.map (fun f => FileEntry (File.name f) (Some f)) files]) ""
     = Some files).
Proof.
  split_and!.
  - intros name reads fs f Hname Hc Hf.
    rewrite collectFilesFromEntry_directory in Hc.
    destruct (readAllDirectoryEntries reads) as [children|]; [|done].
    destruct (collect_all_elem _ _ _ _ Hc Hf)
      as (child & fs' & _ & Hfs' & Hf').
    change (next_path "" name) with name in Hfs'.
    by apply (proj2 (collectFilesFromEntry_sound child name fs' f Hfs' Hf')).
  - intros entry parentPath fs f Hp Hc Hf.
    by apply (proj2 (collectFilesFromEntry_sound entry parentPath fs f Hc Hf)).
  - intros reads. by rewrite collectFilesFromEntry_directory.
  - intros files. destruct files as [|f files]; [done|].
    rewrite collect_directory by (by repeat constructor).
    change (next_path "" "") with "". cbn [concat]. rewrite app_nil_r.
    rewrite (collect_all_files "" (f :: files)). simpl.
    by rewrite List.map_id.
Qed.

Lemma collected_files_path_witness :
  exists rest,
    File.name (File.renamed "root/sub/b.txt" b_txt) = "root" +:+ "/" +:+ rest.
Proof.
  apply (proj1 collected_files_carry_their_folder_path "root"
           [Some [FileEntry "a.txt" (Some a_txt)];
            Some [directory "sub" [[FileEntry "b.txt" (Some b_txt)]]]]
           [File.renamed "root/a.txt" a_txt;
            File.renamed "root/sub/b.txt" b_txt]).
  - reflexivity.
  - reflexivity.
  - apply elem_of_cons. right. apply elem_of_cons. by left.
Defined.

(** X13. The collector invents nothing: every file it returns for an entry
    is a file held by that entry's tree, with the same content, type and
    last-modified time (only the name may have gained a path). *)
Theorem collected_files_come_from_the_tree :
  forall entry parentPath fs f,
    collectFilesFromEntry entry parentPath = Some fs -> f ∈ fs ->
    exists g,
      holds_file entry g /\
      File.content f = File.content g /\ File.type f = File.type g /\
      File.lastModified f = File.lastModified g /\
      File.size f = File.size g.
Proof.
  intros entry parentPath fs f Hc Hf.
  destruct (proj1 (collectFilesFromEntry_sound entry parentPath fs f Hc Hf))
    as (g & Hg & Hcontent & Hty & Hlm).
  exists g. split_and!; try done. unfold File.size. by rewrite Hcontent.
Qed.

Lemma collected_files_tree_witness :
  exists g,
    holds_file (directory "sub" [[FileEntry "b.txt" (Some b_txt)]]) g /\
    File.content (File.renamed "root/sub/b.txt" b_txt) = File.content g /\
    File.type (File.renamed "root/sub/b.txt" b_txt) = File.type g /\
    File.lastModified (File.renamed "root/sub/b.txt" b_txt)
      = File.lastModified g /\
    File.size (File.renamed "root/sub/b.txt" b_txt) = File.size g.
Proof.
  apply (collected_files_come_from_the_tree
           (directory "sub" [[FileEntry "b.txt" (Some b_txt)]]) "root"
           [File.renamed "root/sub/b.txt" b_txt]).
  - reflexivity.
  - apply elem_of_cons. by left.
Defined.

(** X14. One failure fails the whole drop: when a file of a listed folder
    cannot be read the folder's collection fails, and when the collection of
    any dropped entry fails [extractDroppedFiles] fails, returning no file
    at all (not even the files of the entries that could be read). *)
Theorem one_failing_entry_fails_the_drop :
  (forall name batches parentPath child,
     Forall (fun batch => batch <> []) batches ->
     child ∈ concat batches ->
     collectFilesFromEntry child (next_path parentPath name) = None ->
     collectFilesFromEntry (directory name batches) parentPath = None) /\
  (forall dataTransfer entry,
     entry ∈ dropped_entries dataTransfer ->
     collectFilesFromEntry entry "" = None ->
     extractDroppedFiles dataTransfer = None).
Proof.
  split.
  - intros name batches parentPath child Hne Hchild Hfail.
    rewrite collect_directory by done.
    by apply (collect_all_None _ _ child).
  - intros dt entry Hentry Hfail. unfold extractDroppedFiles.
    destruct (dropped_entries dt) as [|e es] eqn:He.
    + by apply elem_of_nil in Hentry.
    + by rewrite (collect_all_None _ _ entry Hentry Hfail).
Qed.

Lemma one_failing_entry_witness :
  extractDroppedFiles
    {| items :=
         Some [entry_item (FileEntry "c.txt" (Some c_txt));
               entry_item
                 (directory "root"
                    [[FileEntry "a.txt" (Some a_txt);
                      FileEntry "b.txt" None]])];
       files := Some [c_txt] |}
  = None.
Proof.
  apply (proj2 one_failing_entry_fails_the_drop _
           (directory "root"
              [[FileEntry "a.txt" (Some a_txt); FileEntry "b.txt" None]])).
  - apply elem_of_cons. right. apply elem_of_cons. by left.
  - apply (proj1 one_failing_entry_fails_the_drop "root"
             [[FileEntry "a.txt" (Some a_txt); FileEntry "b.txt" None]] ""
             (FileEntry "b.txt" None)).
    + repeat constructor; discriminate.
    + apply elem_of_cons. right. apply elem_of_cons. by left.
    + reflexivity.
Defined.

(** X15. [readAllDirectoryEntries] stops at the first empty batch, so that
    whatever the reader would answer afterwards is never asked for, and it
    fails as soon as a read is rejected, dropping the batches read so far. *)
Theorem readAllDirectoryEntries_stops_or_fails :
  forall (batches : list (list FileSystemEntry)) rest,
    Forall (fun batch => batch <> []) batches ->
    readAllDirectoryEntries (List.map Some batches ++ Some [] :: rest)
      = Some (concat batches) /\
    readAllDirectoryEntries (List.map Some batches ++ None :: rest) = None.
Proof.
  intros batches rest Hne. split.
  - by apply readAllDirectoryEntries_stops.
  - induction Hne as [|batch batches Hb _ IH]; [done|].
    simpl. rewrite IH. by destruct batch.
Qed.

Lemma readAllDirectoryEntries_witness :
  readAllDirectoryEntries
    (List.map Some [[FileEntry "a.txt" (Some a_txt)]]
       ++ Some [] :: [Some [FileEntry "b.txt" (Some b_txt)]])
    = Some (concat [[FileEntry "a.txt" (Some a_txt)]]) /\
  readAllDirectoryEntries
    (List.map Some [[FileEntry "a.txt" (Some a_txt)]]
       ++ None :: [Some [FileEntry "b.txt" (Some b_txt)]])
    = None.
Proof.
  apply (readAllDirectoryEntries_stops_or_fails
           [[FileEntry "a.txt" (Some a_txt)]]
           [Some [FileEntry "b.txt" (Some b_txt)]]).
  repeat constructor; discriminate.
Defined.

(** X16. A drop of plain files returns exactly those files, unchanged and
    in order; a dropped folder that holds only files returns each of them
    once, in listing order, renamed to the folder's name, a slash and the
    file's name when the folder's name is not empty, and unchanged when it
    is empty. *)
Theorem plain_files_and_flat_folders_are_collected_in_order :
  (forall fs flat,
     fs <> [] ->
     extractDroppedFiles
       {| items :=
            Some (List.map
                    (fun f => entry_item (FileEntry (File.name f) (Some f)))
                    fs);
          files := flat |}
     = Some fs) /\
  (forall name batches fs,
     Forall (fun batch => batch <> []) batches ->
     concat batches
       = List.map (fun f => FileEntry (File.name f) (Some f)) fs ->
     collectFilesFromEntry (directory name batches) ""
     = Some (List.map
               (fun f =>
                  if truthy_string name
                  then File.renamed (name +:+ "/" +:+ File.name f) f
                  else f) fs)).
Proof.
  split.
  - intros fs flat Hne.
    assert (He : dropped_entries
              {| items :=
                   Some (List.map
                           (fun f =>
                              entry_item (FileEntry (File.name f) (Some f)))
                           fs);
                 files := flat |}
            = List.map (fun f => FileEntry (File.name f) (Some f)) fs).
    { unfold dropped_entries. simpl. clear.
      induction fs as [|f fs IH]; [done|]. simpl. f_equal. exact IH. }
    unfold extractDroppedFiles. rewrite He. destruct fs as [|f fs]; [done|].
    rewrite (collect_all_files "" (f :: fs)). simpl.
    by rewrite List.map_id.
  - intros name batches fs Hne Hall.
    rewrite collect_directory, Hall by done.
    change (next_path "" name) with name.
    by rewrite (collect_all_files name fs).
Qed.

Lemma plain_files_witness :
  extractDroppedFiles
    {| items :=
         Some (List.map
                 (fun f => entry_item (FileEntry (File.name f) (Some f)))
                 [a_txt; b_txt]);
       files := None |}
  = Some [a_txt; b_txt].
Proof.
  apply (proj1 plain_files_and_flat_folders_are_collected_in_order
           [a_txt; b_txt] None).
  discriminate.
Defined.

(** ** More on the submission *)

Lemma truthy_string_true s : truthy_string s = true <-> s <> "".
Proof. by destruct s. Qed.

Lemma truthy_string_false s : truthy_string s = false <-> s = "".
Proof. by destruct s. Qed.

Lemma SitCategoryOption_string_truthy o :
  truthy_string (SitCategoryOption_string o) = true.
Proof. by destruct o. Qed.

Lemma formatDefaultScanName_truthy now fileName :
  truthy_string (formatDefaultScanName now fileName) = true.
Proof. unfold formatDefaultScanName. by destruct fileName. Qed.

(** X17. A submission leads to a scan-creation request exactly when there
    is a file, a sentence-transformer scan has both a non-blank user
    principal name and an access token, and a custom category is not blank.
    The request then carries the files of the form, its scan type and
    preserve-case choice, a non-empty category, and as name the trimmed scan
    name or, when that is blank, the default name made from the first file's
    name. *)
Theorem submitScan_requests_exactly_when_admissible :
  forall now st,
    ((exists files options, submitScan now st = ScanRequested files options)
     <->
     Form.files st <> [] /\
     (Form.scanType st = sentence_transformer ->
      trim (Form.userPrincipalName st) <> "" /\
      truthy (Form.exchangeToken st) = true) /\
     (Form.sitCategory st = Custom ->
      trim (Form.customSitCategory st) <> "")) /\
    (forall files options,
       submitScan now st = ScanRequested files options ->
       files = Form.files st /\
       CreateScanOptions.scanType options = Form.scanType st /\
       CreateScanOptions.preserveCase options = Form.preserveCase st /\
       CreateScanOptions.sitCategory options <> "" /\
       CreateScanOptions.name options <> "" /\
       CreateScanOptions.name options =
         if truthy_string (trim (Form.scanName st))
         then trim (Form.scanName st)
         else formatDefaultScanName now
                (from_option File.name "" (head (Form.files st)))).
Proof.
  intros now st. unfold submitScan.
  destruct (Form.files st) as [|first rest] eqn:Hfiles.
  { split; [|done]. split; [by intros (? & ? & ?)|]. by intros [? _]. }
  destruct (Form.scanType st) eqn:Hty; simpl;
    destruct (truthy_string (trim (Form.userPrincipalName st))) eqn:Hupn;
    destruct (truthy (Form.exchangeToken st)) eqn:Htok; simpl;
    destruct (Form.sitCategory st) eqn:Hcat; simpl;
    try destruct (truthy_string (trim (Form.customSitCategory st))) eqn:Hcus;
    simpl;
    try apply truthy_string_true in Hupn;
    try apply truthy_string_false in Hupn;
    try apply truthy_string_true in Hcus;
    try apply truthy_string_false in Hcus;
    (split;
     [split;
      [intros (files & options & Hreq);
       try discriminate Hreq; split_and!; try done; by intros _
      |intros (_ & Hcred & Hcustom);
       try (by destruct (Hcred eq_refl) as [? ?]);
       try (by destruct (Hcustom eq_refl));
       by eexists _, _]
     |intros files options Hreq; try discriminate Hreq;
      injection Hreq as <- <-; simpl; split_and!; try done;
      destruct (truthy_string (trim (Form.scanName st))) eqn:Hn;
      try (by apply truthy_string_true);
      by apply truthy_string_true, formatDefaultScanName_truthy]).
Qed.

Lemma submitScan_requests_witness :
  exists files options,
    submitScan noon (bridged_form (Some "token") [c_txt])
      = ScanRequested files options.
Proof.
  apply (proj1 (submitScan_requests_exactly_when_admissible noon
                  (bridged_form (Some "token") [c_txt]))).
  split_and!.
  - discriminate.
  - intros _. split; [vm_compute; discriminate|reflexivity].
  - discriminate.
Defined.

Lemma form_text_elem field v entry :
  entry ∈ form_text field v <->
  exists s, v = Some s /\ s <> "" /\ entry = (field, FormText s).
Proof.
  unfold form_text. destruct v as [s|].
  - destruct s as [|a s]; simpl.
    + split; [by intros H%elem_of_nil|]. by intros (s & [= <-] & ? & _).
    + rewrite list_elem_of_singleton. split.
      * intros ->. by eexists.
      * by intros (s' & [= <-] & _ & ->).
  - split; [by intros H%elem_of_nil|]. by intros (s & ? & _).
Qed.

Lemma form_flag_elem field b entry :
  entry ∈ form_flag field b <-> b = true /\ entry = (field, FormText "true").
Proof.
  unfold form_flag. destruct b.
  - rewrite list_elem_of_singleton. naive_solver.
  - split; [by intros H%elem_of_nil|]. by intros [? _].
Qed.

(** The fields of the posted form, one by one. *)
Lemma createScan_form_elem files options entry :
  entry ∈ createScan_form files options <->
  (exists file, file ∈ files /\ entry = ("files", FormFile file)) \/
  (CreateScanOptions.name options <> "" /\
   entry = ("name", FormText (CreateScanOptions.name options))) \/
  entry = ("scan_type",
           FormText (ScanType_string (CreateScanOptions.scanType options))) \/
  (CreateScanOptions.sitCategory options <> "" /\
   entry = ("sit_category",
            FormText (CreateScanOptions.sitCategory options))) \/
  (exists s, CreateScanOptions.userPrincipalName options = Some s /\
             s <> "" /\ entry = ("user_principal_name", FormText s)) \/
  (exists s, CreateScanOptions.exchangeAccessToken options = Some s /\
             s <> "" /\ entry = ("exchange_access_token", FormText s)) \/
  (exists s, CreateScanOptions.exchangeOrganization options = Some s /\
             s <> "" /\ entry = ("exchange_organization", FormText s)) \/
  (CreateScanOptions.preserveCase options = true /\
   entry = ("preserve_case", FormText "true")) \/
  (CreateScanOptions.forceOcr options = true /\
   entry = ("force_ocr", FormText "true")).
Proof.
  unfold createScan_form.
  rewrite !elem_of_app, !form_text_elem, !form_flag_elem.
  assert (Hfiles : entry ∈ List.map (fun file => ("files", FormFile file)) files
                   <-> exists file, file ∈ files
                                    /\ entry = ("files", FormFile file)).
  { change (List.map ?f files) with (f <$> files).
    rewrite list_elem_of_fmap. naive_solver. }
  rewrite Hfiles.
  assert (Hty : ScanType_string (CreateScanOptions.scanType options) <> "")
    by (by destruct (CreateScanOptions.scanType options)).
  naive_solver.
Qed.

Lemma or_undefined_Some s t : or_undefined s = Some t <-> s = Some t /\ t <> "".
Proof.
  unfold or_undefined. destruct s as [[|a s]|]; simpl; naive_solver.
Qed.

(** X18. What a request says about OCR and credentials is what the form
    holds: for a classic scan the form posted has the field [force_ocr]
    exactly when the box is ticked, and for any scan it has the access token
    exactly when a non-empty token is held (also for a classic scan), and
    the user principal name and the organization exactly when they are not
    empty. *)
Theorem posted_form_reflects_the_inputs :
  forall now st files options,
    submitScan now st = ScanRequested files options ->
    (Form.scanType st = classic_nlp ->
     (("force_ocr", FormText "true") ∈ createScan_form files options
      <-> Form.forceOcr st = true)) /\
    (forall t,
       ("exchange_access_token", FormText t) ∈ createScan_form files options
       <-> Form.exchangeToken st = Some t /\ t <> "") /\
    (forall u,
       ("user_principal_name", FormText u) ∈ createScan_form files options
       <-> Form.userPrincipalName st = u /\ u <> "") /\
    (forall o,
       ("exchange_organization", FormText o) ∈ createScan_form files options
       <-> Form.exchangeOrganization st = o /\ o <> "").
Proof.
  intros now st files options Hreq.
  assert (Hopt :
    CreateScanOptions.forceOcr options
      = (if ScanType_eqb (Form.scanType st) classic_nlp
         then Form.forceOcr st else false) /\
    CreateScanOptions.exchangeAccessToken options
      = or_undefined (Form.exchangeToken st) /\
    CreateScanOptions.userPrincipalName options
      = or_undefined (Some (Form.userPrincipalName st)) /\
    CreateScanOptions.exchangeOrganization options
      = or_undefined (Some (Form.exchangeOrganization st))).
  { unfold submitScan in Hreq. destruct (Form.files st); [done|].
    repeat (case_match; try done; []).
    by injection Hreq as _ <-. }
  destruct Hopt as (Hocr & Htok & Hupn & Horg).
  split_and!.
  - intros Hty. rewrite Hty in Hocr. simpl in Hocr.
    rewrite createScan_form_elem, Hocr. naive_solver.
  - intros t. rewrite createScan_form_elem.
    setoid_rewrite Htok. setoid_rewrite or_undefined_Some. naive_solver.
  - intros u. rewrite createScan_form_elem.
    setoid_rewrite Hupn. setoid_rewrite or_undefined_Some. naive_solver.
  - intros o. rewrite createScan_form_elem.
    setoid_rewrite Horg. setoid_rewrite or_undefined_Some. naive_solver.
Qed.

Lemma posted_form_witness :
  ("exchange_access_token", FormText "token")
    ∈ createScan_form [c_txt]
        {| CreateScanOptions.name := "Q1 Financial Docs";
           CreateScanOptions.scanType := sentence_transformer;
           CreateScanOptions.sitCategory := "Financial Services";
           CreateScanOptions.userPrincipalName := Some "name@company.com";
           CreateScanOptions.exchangeAccessToken := Some "token";
           CreateScanOptions.exchangeOrganization := None;
           CreateScanOptions.preserveCase := false;
           CreateScanOptions.forceOcr := false |}.
Proof.
  apply (proj1 (proj2 (posted_form_reflects_the_inputs noon
                         (bridged_form (Some "token") [c_txt]) _ _ eq_refl))
           "token").
  split; [reflexivity|discriminate].
Defined.

Lemma form_text_no_file field v :
  omap (fun entry => match snd entry with
                     | FormFile file => Some file
                     | FormText _ => None
                     end) (form_text field v) = [].
Proof. unfold form_text. destruct v as [s|]; [|done]. by destruct s. Qed.

Lemma form_flag_no_file field b :
  omap (fun entry => match snd entry with
                     | FormFile file => Some file
                     | FormText _ => None
                     end) (form_flag field b) = [].
Proof. by destruct b. Qed.

(** X19. The form posted for a scan has one file part for every file, in
    the order of the working set, all of them under the field [files], and
    it always names the scan type. *)
Theorem posted_form_has_each_file_once :
  forall files options,
    omap (fun entry => match snd entry with
                       | FormFile file => Some file
                       | FormText _ => None
                       end) (createScan_form files options) = files /\
    (forall field file,
       (field, FormFile file) ∈ createScan_form files options ->
       field = "files") /\
    ("scan_type",
     FormText (ScanType_string (CreateScanOptions.scanType options)))
      ∈ createScan_form files options.
Proof.
  intros files options. split_and!.
  - unfold createScan_form.
    rewrite !omap_app, !form_text_no_file, !form_flag_no_file, !app_nil_r.
    induction files as [|f files IH]; [done|]. simpl. f_equal. exact IH.
  - intros field file. rewrite createScan_form_elem. naive_solver.
  - rewrite createScan_form_elem. naive_solver.
Qed.

(** ** The page after a submission *)

(** X20. Unless the scan is created, a submission loses nothing: when it is
    rejected, or when the creation request fails, the form (files, scan
    name, category, credentials) and the selected scan are as before, and an
    error is shown; a failed request shows the message of the error thrown,
    or "Failed to create scan". *)
Theorem failed_submission_keeps_the_form :
  forall now createdAt page created refreshed fetched,
    (forall error, submitScan now (Page.form page) = Rejected error ->
       submitScan_page now createdAt page created refreshed fetched
       = Page.setError (Some error) page) /\
    (forall files options message,
       submitScan now (Page.form page) = ScanRequested files options ->
       created = Throws message ->
       submitScan_page now createdAt page created refreshed fetched
       = Page.setError
           (Some (from_option id "Failed to create scan" message)) page) /\
    ((forall scan_id status, created <> Resolves (scan_id, status)) ->
     Page.form (submitScan_page now createdAt page created refreshed fetched)
       = Page.form page /\
     Page.selectedScanId
       (submitScan_page now createdAt page created refreshed fetched)
       = Page.selectedScanId page /\
     Page.scanDetails
       (submitScan_page now createdAt page created refreshed fetched)
       = Page.scanDetails page /\
     is_Some (Page.error
                (submitScan_page now createdAt page created refreshed fetched))).
Proof.
  intros now createdAt page created refreshed fetched. unfold submitScan_page.
  split_and!.
  - by intros error ->.
  - intros files options message -> ->. by destruct message.
  - intros Hnot. destruct (submitScan now (Page.form page)); [by eauto|].
    destruct created as [[scan_id status]|message]; [|by eauto].
    by destruct (Hnot scan_id status).
Qed.

Lemma failed_submission_witness :
  let page := {| Page.form := bridged_form (Some "token") [c_txt];
                 Page.selectedScanId := "scan-1";
                 Page.justCreatedScanId := None;
                 Page.lastCandidatesLoadKey := "scan-1:COMPLETED";
                 Page.scanDetails := None;
                 Page.error := None |} in
  Page.form (submitScan_page noon "2024-01-05T12:00:00.000Z" page
               (Throws (Some "Request failed (500)")) (Resolves tt)
               (Throws None))
  = Page.form page.
Proof.
  intros page.
  apply (proj2 (proj2 (failed_submission_keeps_the_form noon
           "2024-01-05T12:00:00.000Z" page
           (Throws (Some "Request failed (500)")) (Resolves tt)
           (Throws None)))).
  discriminate.
Defined.

Lemma auto_select_just_created created selectedScanId scans :
  created <> "" -> auto_select (Some created) selectedScanId scans = created.
Proof.
  intros Hne%truthy_string_true. unfold auto_select. simpl. rewrite Hne.
  by destruct (String.eqb_spec selectedScanId created).
Qed.

(** X21. When the scan is created, the page shows it at once: the files
    and the scan name are cleared while the rest of the form stays, the new
    scan is selected and marked as just created (so that the choice of the
    scan to show keeps it selected), and, until fetched details replace
    them, the details shown are the pending ones, with progress 0 and 0 of
    all submitted files done. *)
Theorem created_scan_is_shown_as_pending :
  forall now createdAt page files options scan_id status refreshed fetched
         scans,
    submitScan now (Page.form page) = ScanRequested files options ->
    let page' :=
      submitScan_page now createdAt page (Resolves (scan_id, status))
        refreshed fetched in
    Page.form page' = clear_submitted (Page.form page) /\
    Form.files (Page.form page') = [] /\
    Form.scanName (Page.form page') = "" /\
    Page.selectedScanId page' = scan_id /\
    Page.justCreatedScanId page' = Some scan_id /\
    (scan_id <> "" ->
     auto_select (Page.justCreatedScanId page') (Page.selectedScanId page')
       scans = scan_id) /\
    ((forall details, ~ (refreshed = Resolves tt /\ fetched = Resolves details))
     ->
     progressPct (Page.scanDetails page') = Some 0%Z /\
     filesDone (Page.scanDetails page') = Some 0%Z /\
     filesTotal (Page.scanDetails page')
       = Some (Z.of_nat (length (Form.files (Page.form page)))) /\
     progressPhase (Page.scanDetails page') = Some "pending" /\
     (Detail.status <$> Page.scanDetails page') = Some status) /\
    (forall details,
       refreshed = Resolves tt -> fetched = Resolves details ->
       Page.scanDetails page' = Some details).
Proof.
  intros now createdAt page files options scan_id status refreshed fetched
    scans Hreq page'.
  assert (Hfiles : files = Form.files (Page.form page)).
  { unfold submitScan in Hreq. destruct (Form.files (Page.form page)); [done|].
    repeat (case_match; try done; []). by injection Hreq as <- _. }
  subst page'. unfold submitScan_page. rewrite Hreq.
  destruct refreshed as [[]|message].
  - destruct fetched as [details|message']; simpl; split_and!; try done.
    + intros Hid. by apply auto_select_just_created.
    + intros Hnot. by destruct (Hnot details).
    + by intros details' _ [= ->].
    + intros Hid. by apply auto_select_just_created.
    + intros _. by rewrite Hfiles.
  - simpl. split_and!; try done.
    + intros Hid. by apply auto_select_just_created.
    + intros _. by rewrite Hfiles.
Qed.

Lemma created_scan_witness :
  let page := {| Page.form := bridged_form (Some "token") [c_txt];
                 Page.selectedScanId := "scan-1";
                 Page.justCreatedScanId := None;
                 Page.lastCandidatesLoadKey := "scan-1:COMPLETED";
                 Page.scanDetails := None;
                 Page.error := None |} in
  Page.selectedScanId
    (submitScan_page noon "2024-01-05T12:00:00.000Z" page
       (Resolves ("scan-2", "PENDING")) (Resolves tt) (Throws None))
  = "scan-2".
Proof.
  intros page.
  pose proof (created_scan_is_shown_as_pending noon
    "2024-01-05T12:00:00.000Z" page _ _ "scan-2" "PENDING" (Resolves tt)
    (Throws None) [] eq_refl) as H.
  exact (proj1 (proj2 (proj2 (proj2 H)))).
Defined.

(** ** The default scan name *)






(** ** The force-OCR effect *)

(** X23. After the force-OCR effect has run, the form never has the
    sentence-transformer scan type together with forced OCR; the effect
    changes no other field, leaves a classic form alone, and running it
    again changes nothing. *)
Theorem forceOcr_effect_settles :
  forall st,
    ~ (Form.scanType (forceOcr_effect st) = sentence_transformer /\
       Form.forceOcr (forceOcr_effect st) = true) /\
    forceOcr_effect st
      = Form.setForceOcr (Form.forceOcr (forceOcr_effect st)) st /\
    (Form.scanType st = classic_nlp -> forceOcr_effect st = st) /\
    forceOcr_effect (forceOcr_effect st) = forceOcr_effect st.
Proof.
  intros [name cat custom pc ocr ty upn tok org fs].
  unfold forceOcr_effect. destruct ty, ocr; simpl; split_and!; try done;
    by intros [? ?].
Qed.

(** ** Delete mode *)

Lemma JsSet_delete_absent x s : x ∉ s -> JsSet.delete x s = s.
Proof.
  unfold JsSet.delete. induction s as [|y s IH]; [done|].
  rewrite not_elem_of_cons. intros [Hne Hs]. simpl.
  apply not_eq_sym, String.eqb_neq in Hne. rewrite Hne. simpl.
  by rewrite IH.
Qed.

Lemma JsSet_delete_length x s :
  NoDup s -> x ∈ s -> S (length (JsSet.delete x s)) = length s.
Proof.
  unfold JsSet.delete. induction s as [|y s IH]; intros Hnd Hx.
  - by apply elem_of_nil in Hx.
  - apply NoDup_cons in Hnd as [Hy Hnd]. simpl.
    destruct (String.eqb_spec y x) as [->|Hne]; simpl.
    + pose proof (JsSet_delete_absent x s Hy) as E.
      unfold JsSet.delete in E. by rewrite E.
    + apply elem_of_cons in Hx as [->|Hx]; [done|]. by rewrite IH.
Qed.

(** X24. Ticking a scan in delete mode flips exactly that scan: it is
    selected afterwards when it was not before and the other way round, no
    other scan changes, the selection still holds no id twice, its size
    changes by one, and ticking twice restores the selected ids. *)
Theorem toggleScanForDelete_flips_one_scan :
  forall scanId prev,
    NoDup prev ->
    NoDup (toggleScanForDelete scanId prev) /\
    (scanId ∈ toggleScanForDelete scanId prev <-> scanId ∉ prev) /\
    (forall other, other <> scanId ->
       (other ∈ toggleScanForDelete scanId prev <-> other ∈ prev)) /\
    JsSet.size (toggleScanForDelete scanId prev)
      = (if JsSet.has scanId prev then JsSet.size prev - 1
         else JsSet.size prev + 1)%nat /\
    toggleScanForDelete scanId (toggleScanForDelete scanId prev) ≡ₚ prev.
Proof.
  intros x s Hnd. unfold toggleScanForDelete, JsSet.size.
  destruct (JsSet.has x s) eqn:Hhas.
  - assert (Hx : x ∈ s) by (by apply includes_string_elem).
    assert (Habs : x ∉ JsSet.delete x s)
      by (rewrite JsSet_delete_elem; naive_solver).
    assert (Hno : JsSet.has x (JsSet.delete x s) = false)
      by (by apply includes_string_not_elem).
    split_and!.
    + by apply JsSet_delete_NoDup.
    + naive_solver.
    + intros y Hy. rewrite JsSet_delete_elem. naive_solver.
    + pose proof (JsSet_delete_length x s Hnd Hx). lia.
    + rewrite Hno. unfold JsSet.add. rewrite Hno.
      apply NoDup_Permutation.
      * apply NoDup_app. split_and!;
          [by apply JsSet_delete_NoDup| |apply NoDup_singleton].
        by intros y Hy ->%list_elem_of_singleton.
      * done.
      * intros y. rewrite elem_of_app, JsSet_delete_elem,
          list_elem_of_singleton.
        destruct (decide (y = x)); naive_solver.
  - assert (Hx : x ∉ s) by (by apply includes_string_not_elem).
    assert (Hadd : JsSet.add x s = s ++ [x])
      by (unfold JsSet.add; by rewrite Hhas).
    assert (Hyes : JsSet.has x (JsSet.add x s) = true).
    { apply includes_string_elem. rewrite JsSet_add_elem. by left. }
    split_and!.
    + by apply JsSet_add_NoDup.
    + rewrite JsSet_add_elem. naive_solver.
    + intros y Hy. rewrite JsSet_add_elem. naive_solver.
    + rewrite Hadd, length_app. simpl. lia.
    + rewrite Hyes, Hadd. unfold JsSet.delete.
      rewrite List.filter_app. simpl. rewrite String.eqb_refl. simpl.
      rewrite app_nil_r. fold (JsSet.delete x s).
      by rewrite JsSet_delete_absent.
Qed.

Lemma toggleScanForDelete_witness :
  toggleScanForDelete "scan-1" (toggleScanForDelete "scan-1" ["scan-1"; "scan-2"])
    ≡ₚ ["scan-1"; "scan-2"].
Proof.
  apply (toggleScanForDelete_flips_one_scan "scan-1" ["scan-1"; "scan-2"]).
  repeat constructor; rewrite ?elem_of_cons; try apply not_elem_of_nil.
  intros [H|H]; [discriminate|by apply elem_of_nil in H].
Defined.

Lemma JsSet_of_list_NoDup_id l : NoDup l -> JsSet.of_list l = l.
Proof.
  induction l as [|x l IH] using rev_ind; [done|]. intros Hnd.
  apply NoDup_app in Hnd as (Hl & Hx & _).
  rewrite JsSet_of_list_snoc, (IH Hl). unfold JsSet.add, JsSet.has.
  assert (H : x ∉ l).
  { intros Hin. apply (Hx x Hin). by apply list_elem_of_singleton. }
  apply includes_string_not_elem in H. by rewrite H.
Qed.

(** X25. With scans of distinct ids and a selection made of ids of the
    list, "all scans selected" holds exactly when the list is not empty and
    every scan is selected, and the select-all button selects every scan
    when not all are selected and clears the selection when all are. A
    deletion after select-all asks for every scan of the list; when all
    deletions succeed it clears the selection and resets the selected scan,
    and when one is rejected it keeps both and sets the error. A deletion
    with nothing selected asks for nothing and only sets an error. *)
Theorem select_all_selects_every_scan :
  forall scans scanIdsToDelete selectedScanId error deleted refreshed,
    let ids := List.map ScanSummary.scan_id scans in
    NoDup ids -> NoDup scanIdsToDelete ->
    (forall x, x ∈ scanIdsToDelete -> x ∈ ids) ->
    (allScansSelected scans scanIdsToDelete = true <->
     scans <> [] /\ forall x, x ∈ ids -> x ∈ scanIdsToDelete) /\
    toggleSelectAllForDelete scans scanIdsToDelete
      = (if allScansSelected scans scanIdsToDelete then [] else ids) /\
    (scans <> [] ->
     allScansSelected scans
       (toggleSelectAllForDelete scans scanIdsToDelete)
     = negb (allScansSelected scans scanIdsToDelete)) /\
    (scans <> [] -> selectedScanId ∈ ids -> selectedScanId <> "" ->
     let page :=
       {| DeletePage.selectedScanId := selectedScanId;
          DeletePage.scanIdsToDelete := toggleSelectAllForDelete scans [];
          DeletePage.error := error |} in
     fst (deleteSelectedScans page deleted refreshed) = ids /\
     (deleted = Resolves tt ->
      DeletePage.selectedScanId
        (snd (deleteSelectedScans page deleted refreshed)) = "" /\
      DeletePage.scanIdsToDelete
        (snd (deleteSelectedScans page deleted refreshed)) = []) /\
     (forall message, deleted = Throws message ->
      snd (deleteSelectedScans page deleted refreshed)
      = {| DeletePage.selectedScanId := selectedScanId;
           DeletePage.scanIdsToDelete := ids;
           DeletePage.error :=
             Some (from_option id "Failed to delete scans" message) |})) /\
    deleteSelectedScans
      {| DeletePage.selectedScanId := selectedScanId;
         DeletePage.scanIdsToDelete := [];
         DeletePage.error := error |} deleted refreshed
    = ([],
       {| DeletePage.selectedScanId := selectedScanId;
          DeletePage.scanIdsToDelete := [];
          DeletePage.error := Some "Select at least one scan to delete." |}).
Proof.
  intros scans sel selected error deleted refreshed ids Hids Hsel Hsub.
  assert (Hlen : length ids = length scans) by apply List.length_map.
  assert (Hall : allScansSelected scans sel = true <->
                 scans <> [] /\ forall x, x ∈ ids -> x ∈ sel).
  { unfold allScansSelected, JsSet.size.
    rewrite andb_true_iff, Nat.ltb_lt, Nat.eqb_eq. split.
    - intros [Hpos Heq]. split; [by destruct scans; [simpl in Hpos; lia|]|].
      assert (Hperm : sel ≡ₚ ids).
      { apply submseteq_length_Permutation; [by apply NoDup_submseteq|lia]. }
      intros x. by rewrite Hperm.
    - intros [Hne Hfull]. split; [destruct scans; [done|simpl; lia]|].
      assert (Hperm : sel ≡ₚ ids) by (apply NoDup_Permutation; naive_solver).
      by rewrite <- Hlen, Hperm. }
  assert (Htoggle : toggleSelectAllForDelete scans sel
                    = if allScansSelected scans sel then [] else ids).
  { unfold toggleSelectAllForDelete.
    destruct (allScansSelected scans sel); [done|].
    change (List.map ScanSummary.scan_id scans) with ids.
    by apply JsSet_of_list_NoDup_id. }
  split_and!; [done|done| | |done].
  - intros Hne. rewrite Htoggle.
    destruct (allScansSelected scans sel) eqn:E; simpl.
    + unfold allScansSelected, JsSet.size. destruct scans; [done|]. done.
    + unfold allScansSelected, JsSet.size. rewrite Hlen, Nat.eqb_refl.
      destruct scans; [done|]. done.
  - intros Hne Hin Hnonempty page.
    assert (Hnone : allScansSelected scans [] = false).
    { unfold allScansSelected, JsSet.size. destruct scans; [done|]. done. }
    assert (Hpage : toggleSelectAllForDelete scans [] = ids).
    { unfold toggleSelectAllForDelete. rewrite Hnone.
      change (List.map ScanSummary.scan_id scans) with ids.
      by apply JsSet_of_list_NoDup_id. }
    assert (Hsize : (length ids =? 0)%nat = false).
    { rewrite Hlen. destruct scans; [done|]. done. }
    subst page. unfold deleteSelectedScans, JsSet.size. simpl.
    rewrite Hpage, Hsize.
    apply truthy_string_true in Hnonempty. rewrite Hnonempty.
    apply includes_string_elem in Hin. unfold JsSet.has. rewrite Hin.
    split_and!.
    + done.
    + by intros ->.
    + intros message ->. by destruct message.
Qed.

Lemma select_all_witness :
  let page :=
    {| DeletePage.selectedScanId := "scan-1";
       DeletePage.scanIdsToDelete := toggleSelectAllForDelete [bridged_scan] [];
       DeletePage.error := None |} in
  fst (deleteSelectedScans page (Throws (Some "Request failed (500)"))
         (Resolves tt))
    = List.map ScanSummary.scan_id [bridged_scan] /\
  snd (deleteSelectedScans page (Throws (Some "Request failed (500)"))
         (Resolves tt))
  = {| DeletePage.selectedScanId := "scan-1";
       DeletePage.scanIdsToDelete := ["scan-1"];
       DeletePage.error := Some "Request failed (500)" |}.
Proof.
  intros page.
  pose proof (select_all_selects_every_scan [bridged_scan] [] "scan-1" None
                (Throws (Some "Request failed (500)")) (Resolves tt)) as H.
  simpl in H.
  destruct H as (_ & _ & _ & H & _).
  - repeat constructor. apply not_elem_of_nil.
  - constructor.
  - intros x Hx. by apply elem_of_nil in Hx.
  - destruct H as (Hreq & _ & Hfail).
    + discriminate.
    + apply elem_of_cons. by left.
    + discriminate.
    + split; [exact Hreq|]. exact (Hfail _ eq_refl).
Defined.

(** ** Choosing the scan to show *)

Lemma find_first {A} (p : A -> bool) l x :
  List.find p l = Some x ->
  exists l1 l2, l = l1 ++ x :: l2 /\ p x = true /\
                Forall (fun y => p y = false) l1.
Proof.
  induction l as [|y l IH]; simpl; [done|].
  destruct (p y) eqn:Hy.
  - intros [= ->]. by exists [], l.
  - intros (l1 & l2 & -> & Hx & Hl1)%IH.
    exists (y :: l1), l2. split_and!; [done|done|by constructor].
Qed.

Lemma find_none {A} (p : A -> bool) l :
  List.find p l = None -> Forall (fun y => p y = false) l.
Proof.
  induction l as [|y l IH]; simpl; [constructor|].
  destruct (p y) eqn:Hy; [done|]. intros H. constructor; auto.
Qed.

(** X26. With nothing selected and no scan just created, the page selects
    the first scan of the list that is pending, extracting or analyzing and,
    when there is none, the first scan of the list; an existing selection is
    left alone, a scan just created takes the selection, and once the choice
    is made, making it again changes nothing. *)
Theorem auto_select_prefers_the_first_running_scan :
  forall justCreatedScanId selectedScanId scans,
    (truthy justCreatedScanId = false -> selectedScanId = "" ->
     scans <> [] ->
     (exists before scan after,
        scans = before ++ scan :: after /\
        auto_select justCreatedScanId selectedScanId scans
          = ScanSummary.scan_id scan /\
        Forall (fun s => in_progress s = false) before /\
        (in_progress scan = true \/
         (before = [] /\ Forall (fun s => in_progress s = false) after)))) /\
    (truthy justCreatedScanId = false -> selectedScanId <> "" ->
     auto_select justCreatedScanId selectedScanId scans = selectedScanId) /\
    (forall created, justCreatedScanId = Some created -> created <> "" ->
     auto_select justCreatedScanId selectedScanId scans = created) /\
    auto_select justCreatedScanId
      (auto_select justCreatedScanId selectedScanId scans) scans
    = auto_select justCreatedScanId selectedScanId scans.
Proof.
  intros jc sel scans. split_and!.
  - intros Hjc -> Hne. unfold auto_select. rewrite Hjc. simpl.
    destruct scans as [|first rest]; [done|].
    change ((length (first :: rest) =? 0)%nat) with false. cbv iota.
    destruct (List.find in_progress (first :: rest)) as [scan|] eqn:Hfind.
    + destruct (find_first _ _ _ Hfind) as (l1 & l2 & Heq & Hp & Hl1).
      exists l1, scan, l2. split_and!; try done. by left.
    + apply find_none in Hfind. apply Forall_cons in Hfind as [Hfirst Hrest].
      exists [], first, rest. split_and!; try done. by right.
  - intros Hjc Hsel%truthy_string_true. unfold auto_select.
    by rewrite Hjc, Hsel.
  - intros created -> Hne. by apply auto_select_just_created.
  - unfold auto_select. destruct (truthy jc) eqn:Hjc.
    + destruct jc as [created|]; [|done].
      destruct (String.eqb_spec sel created) as [->|Hne]; simpl.
      * by rewrite String.eqb_refl.
      * by rewrite String.eqb_refl.
    + destruct (truthy_string sel) eqn:Hsel; simpl; [by rewrite Hsel|].
      destruct scans as [|first rest]; [simpl; by rewrite Hsel|].
      change ((length (first :: rest) =? 0)%nat) with false. cbv iota.
      set (pid := ScanSummary.scan_id
                    (nullish_or (List.find in_progress (first :: rest))
                       first)).
      by destruct (truthy_string pid).
Qed.

Lemma auto_select_witness :
  exists before scan after,
    [bridged_scan] = before ++ scan :: after /\
    auto_select None "" [bridged_scan] = ScanSummary.scan_id scan /\
    Forall (fun s => in_progress s = false) before /\
    (in_progress scan = true \/
     (before = [] /\ Forall (fun s => in_progress s = false) after)).
Proof.
  apply (proj1 (auto_select_prefers_the_first_running_scan None ""
                  [bridged_scan])).
  - reflexivity.
  - reflexivity.
  - discriminate.
Defined.

(** ** Progress *)

(** X27. The progress percentage shown is always between 0 and 100: a
    reported number within that range is shown as it is, a lower one as 0, a
    higher one as 100; and nothing is shown unless the scan's metadata
    reports a number. *)
Theorem progressPct_is_clamped :
  forall scanDetails,
    (forall raw,
       metadata_field "processing_progress_pct" scanDetails
         = Some (JsNumber raw) ->
       progressPct scanDetails
         = Some (if (raw <? 0)%Z then 0%Z
                 else if (100 <? raw)%Z then 100%Z else raw)) /\
    (forall pct, progressPct scanDetails = Some pct ->
       (0 <= pct <= 100)%Z /\
       exists raw,
         metadata_field "processing_progress_pct" scanDetails
           = Some (JsNumber raw)) /\
    (scanDetails = None -> progressPct scanDetails = None).
Proof.
  intros details. unfold progressPct. split_and!.
  - intros raw ->. simpl. f_equal.
    destruct (Z.ltb_spec raw 0), (Z.ltb_spec 100 raw); lia.
  - intros pct.
    destruct (metadata_field _ details) as [[raw| | | |]|]; simpl; try done.
    intros [= <-]. split; [lia|by exists raw].
  - by intros ->.
Qed.

(** ** Microsoft sign-in *)

Lemma split_on_no_separator sep s :
  includes_char sep s = false -> split_on sep s = [s].
Proof.
  induction s as [|a s IH]; [done|]. simpl.
  intros [Ha Hs]%orb_false_iff. by rewrite Ha, (IH Hs).
Qed.

Lemma split_on_first sep l r :
  includes_char sep l = false ->
  split_on sep (l +:+ String sep r) = l :: split_on sep r.
Proof.
  induction l as [|a l IH]; intros Hl.
  - change (split_on sep (String sep r) = "" :: split_on sep r).
    simpl. by rewrite Ascii.eqb_refl.
  - simpl in Hl. apply orb_false_iff in Hl as [Ha Hl].
    rewrite app_cons. simpl. by rewrite Ha, (IH Hl).
Qed.

Lemma includes_char_append sep l r :
  includes_char sep (l +:+ String sep r) = true.
Proof.
  induction l as [|a l IH].
  - change (includes_char sep (String sep r) = true). simpl.
    by rewrite Ascii.eqb_refl.
  - rewrite app_cons. simpl. rewrite IH. apply orb_true_r.
Qed.

(** X28. The organization taken from a user principal name is the text
    between the first "@" and the next one (or the end): the domain of
    [local@domain], and nothing at all for a name without "@". *)
Theorem organization_is_the_domain_of_the_upn :
  forall local domain,
    includes_char "@" local = false -> includes_char "@" domain = false ->
    organization_of (local +:+ "@" +:+ domain) = domain /\
    (forall rest,
       organization_of (local +:+ "@" +:+ domain +:+ "@" +:+ rest) = domain) /\
    organization_of local = "".
Proof.
  intros local domain Hl Hd. unfold organization_of. split_and!.
  - change (local +:+ "@" +:+ domain) with (local +:+ String "@" domain).
    rewrite includes_char_append, (split_on_first _ _ _ Hl).
    by rewrite (split_on_no_separator _ _ Hd).
  - intros rest.
    change (local +:+ "@" +:+ domain +:+ "@" +:+ rest)
      with (local +:+ String "@" (domain +:+ String "@" rest)).
    rewrite includes_char_append, (split_on_first _ _ _ Hl).
    by rewrite (split_on_first _ _ _ Hd).
  - by rewrite Hl.
Qed.

Lemma organization_witness :
  organization_of ("name" +:+ "@" +:+ "company.com") = "company.com".
Proof.
  apply (organization_is_the_domain_of_the_upn "name" "company.com");
    reflexivity.
Defined.




(** ** Loading the candidates *)

(** X30. The candidates are loaded once per selected scan and status: after
    the effect has run for a selected scan, it loads again exactly when the
    selected scan or its status (the details' status, else the list's, else
    "UNKNOWN") has changed, so that it never reloads in a loop; statuses are
    taken to contain no colon. With no scan selected the candidates are
    cleared. *)
Theorem candidates_reload_when_scan_or_status_changes :
  forall id1 details1 listed1 id2 details2 listed2 last,
    let status1 := nullish_or (nullish details1 listed1) "UNKNOWN" in
    let status2 := nullish_or (nullish details2 listed2) "UNKNOWN" in
    let key1 := fst (candidates_effect id1 details1 listed1 last) in
    id1 <> "" -> id2 <> "" ->
    has_colon status1 = false -> has_colon status2 = false ->
    candidates_effect id1 details1 listed1 key1 = (key1, KeepCandidates) /\
    (id2 = id1 /\ status2 = status1 ->
     candidates_effect id2 details2 listed2 key1 = (key1, KeepCandidates)) /\
    (~ (id2 = id1 /\ status2 = status1) ->
     candidates_effect id2 details2 listed2 key1
     = (id2 +:+ ":" +:+ status2, LoadCandidates id2)) /\
    candidates_effect "" details2 listed2 key1 = ("", ClearCandidates).
Proof.
  intros id1 d1 l1 id2 d2 l2 last status1 status2 key1
    Hid1%truthy_string_true Hid2%truthy_string_true Hs1 Hs2.
  assert (Hkey : key1 = id1 +:+ ":" +:+ status1).
  { subst key1. unfold candidates_effect. rewrite Hid1. simpl. fold status1.
    by destruct (String.eqb_spec (id1 +:+ ":" +:+ status1) last). }
  assert (Hsame : forall id d l,
            truthy_string id = true ->
            id +:+ ":" +:+ nullish_or (nullish d l) "UNKNOWN" = key1 ->
            candidates_effect id d l key1 = (key1, KeepCandidates)).
  { intros id d l Hid Heq. unfold candidates_effect. rewrite Hid. simpl.
    by rewrite Heq, String.eqb_refl. }
  split_and!.
  - apply Hsame; [done|by rewrite Hkey].
  - intros [-> Hst]. apply Hsame; [done|]. fold status2.
    by rewrite Hst, Hkey.
  - intros Hdiff. unfold candidates_effect. rewrite Hid2. simpl.
    fold status2.
    destruct (String.eqb_spec (id2 +:+ ":" +:+ status2) key1) as [Heq|Hne];
      [|done].
    exfalso. apply Hdiff. rewrite Hkey in Heq.
    change (id2 +:+ String ":" status2 = id1 +:+ String ":" status1) in Heq.
    by apply colon_split in Heq.
  - reflexivity.
Qed.

Lemma candidates_reload_witness :
  candidates_effect "scan-1" (Some "COMPLETED") None
    (fst (candidates_effect "scan-1" (Some "ANALYZING") None ""))
  = ("scan-1" +:+ ":" +:+ "COMPLETED", LoadCandidates "scan-1").
Proof.
  apply (proj1 (proj2 (proj2 (candidates_reload_when_scan_or_status_changes
           "scan-1" (Some "ANALYZING") None "scan-1" (Some "COMPLETED") None
           "" ltac:(discriminate) ltac:(discriminate) eq_refl eq_refl)))).
  intros [_ H]. discriminate H.
Defined.
